(** * extq: DGA estimators with memory and the extended (index-process) engine

    A shallow embedding of [src/extq/memory/_dga.py] and
    [src/extq/dga/_xdga.py], and the properties of the specification
    that are stated about them.

    Conventions of the embedding.
    - A Python call either returns a value or raises; a computation of
      type [exc A] is [Raise e] or [Ok a], and [x <- c ;; k] stops at the
      first exception.
    - A numpy float64 is a value of [flt]: an exact rational, an infinity
      or NaN.  Rounding, overflow and the sign of zero are not modelled.
    - A 1-D array is a list; a 2-D array is a record of its column count
      and its rows ([array2]); the 3-D arrays of the extended engine are
      a shape with an indexing function ([ndarray]). *)

From Stdlib Require Import ZArith QArith Qcanon List Bool Arith Lia.
Import ListNotations.

Close Scope Qc_scope.
Close Scope Q_scope.
Open Scope nat_scope.

Set Implicit Arguments.

(** ** Python exceptions *)

Inductive pyerror : Set :=
| AssertionError
| ValueError
| IndexError
| ZeroDivisionError
| LinAlgError.

Inductive exc (A : Type) : Type :=
| Raise (e : pyerror)
| Ok (a : A).

Arguments Raise {A} e.
Arguments Ok {A} a.

Definition bind {A B : Type} (c : exc A) (k : A -> exc B) : exc B :=
  match c with
  | Raise e => Raise e
  | Ok a => k a
  end.

Declare Scope exc_scope.
Delimit Scope exc_scope with exc.
Notation "x <- c ;; k" := (bind c (fun x => k))
  (at level 61, c at next level, right associativity) : exc_scope.
Notation "c ;;; k" := (bind c (fun _ => k))
  (at level 61, right associativity) : exc_scope.
Open Scope exc_scope.

(** [assert b] *)
Definition assert (b : bool) : exc unit :=
  if b then Ok tt else Raise AssertionError.

(** A [for] loop whose body may raise. *)
Fixpoint foldM {A S : Type} (body : S -> A -> exc S) (xs : list A) (s : S)
  : exc S :=
  match xs with
  | [] => Ok s
  | x :: rest => s' <- body s x ;; foldM body rest s'
  end.

(** A list comprehension whose element expression may raise. *)
Fixpoint mapM {A B : Type} (f : A -> exc B) (xs : list A) : exc (list B) :=
  match xs with
  | [] => Ok []
  | x :: rest => y <- f x ;; ys <- mapM f rest ;; Ok (y :: ys)
  end.

(** ** Python integers: [%], [//], indices and slices *)

Definition py_mod (a b : Z) : exc Z :=
  if (b =? 0)%Z then Raise ZeroDivisionError else Ok (a mod b)%Z.

Definition py_floordiv (a b : Z) : exc Z :=
  if (b =? 0)%Z then Raise ZeroDivisionError else Ok (a / b)%Z.

(** Position of a slice bound in a sequence of length [n]: a negative
    bound counts from the end, and every bound is clipped to [0..n]. *)
Definition slice_bound (n : nat) (i : Z) : nat :=
  if (i <? 0)%Z then Z.to_nat (Z.max 0 (i + Z.of_nat n))
  else Nat.min (Z.to_nat i) n.

(** [l[start:stop]], a missing bound being [None]. *)
Definition py_slice {A : Type} (start stop : option Z) (l : list A) : list A :=
  let n := length l in
  let a := match start with None => 0 | Some i => slice_bound n i end in
  let b := match stop with None => n | Some i => slice_bound n i end in
  firstn (b - a) (skipn a l).

(** [l[i]]: a negative index counts from the end; out of range raises. *)
Definition py_index {A : Type} (l : list A) (i : Z) : exc A :=
  let n := Z.of_nat (length l) in
  let j := if (i <? 0)%Z then (i + n)%Z else i in
  if ((j <? 0) || (n <=? j))%Z then Raise IndexError
  else match nth_error l (Z.to_nat j) with
       | Some x => Ok x
       | None => Raise IndexError
       end.

(** [numpy.arange(start, stop, step)] on integers: the values
    [start + k*step] in the half-open interval towards [stop]; a zero
    step is an error. *)
Definition np_arange (start stop step : Z) : exc (list Z) :=
  if (step =? 0)%Z then Raise ZeroDivisionError
  else
    let span := (stop - start)%Z in
    let count := (if (span mod step =? 0)%Z then span / step
                  else span / step + 1)%Z in
    Ok (map (fun k => (start + Z.of_nat k * step)%Z) (seq 0 (Z.to_nat count))).

(** ** Floating-point values *)

Inductive flt : Set :=
| Fin (q : Qc)
| Inf (negative : bool)
| NaN.

Definition fzero : flt := Fin 0%Qc.
Definition fone : flt := Fin 1%Qc.
Definition of_int (z : Z) : flt := Fin (Q2Qc (inject_Z z)).

Definition fneg (a : flt) : flt :=
  match a with
  | Fin x => Fin (- x)%Qc
  | Inf s => Inf (negb s)
  | NaN => NaN
  end.

Definition fadd (a b : flt) : flt :=
  match a, b with
  | NaN, _ | _, NaN => NaN
  | Fin x, Fin y => Fin (x + y)%Qc
  | Inf s, Inf t => if Bool.eqb s t then Inf s else NaN
  | Inf s, Fin _ | Fin _, Inf s => Inf s
  end.

Definition fsub (a b : flt) : flt := fadd a (fneg b).

Definition fmul (a b : flt) : flt :=
  match a, b with
  | NaN, _ | _, NaN => NaN
  | Fin x, Fin y => Fin (x * y)%Qc
  | Inf s, Inf t => Inf (xorb s t)
  | Inf s, Fin x | Fin x, Inf s =>
      match (x ?= 0)%Qc with
      | Eq => NaN
      | Gt => Inf s
      | Lt => Inf (negb s)
      end
  end.

(** True division; division by zero gives an infinity or NaN (numpy warns
    and does not raise). *)
Definition fdiv (a b : flt) : flt :=
  match a, b with
  | NaN, _ | _, NaN => NaN
  | Fin x, Fin y =>
      if Qc_eq_dec y 0%Qc then
        match (x ?= 0)%Qc with
        | Eq => NaN
        | Gt => Inf false
        | Lt => Inf true
        end
      else Fin (x / y)%Qc
  | Fin _, Inf _ => Fin 0%Qc
  | Inf s, Fin y =>
      match (y ?= 0)%Qc with
      | Lt => Inf (negb s)
      | _ => Inf s
      end
  | Inf _, Inf _ => NaN
  end.

(** [a == b] on floats: NaN is equal to nothing. *)
Definition feqb (a b : flt) : bool :=
  match a, b with
  | Fin x, Fin y => if Qc_eq_dec x y then true else false
  | Inf s, Inf t => Bool.eqb s t
  | _, _ => false
  end.

Definition finite (a : flt) : Prop :=
  match a with Fin _ => True | _ => False end.

(** ** numpy arrays of rank 1 and 2 *)

Definition vec := list flt.

Record array2 : Set := Array2 { ncols : nat; rows : list vec }.

Definition nrows (A : array2) : nat := length (rows A).

(** Every row of a 2-D array has [ncols] entries. *)
Definition wf2 (A : array2) : Prop :=
  Forall (fun r => length r = ncols A) (rows A).

Definition same_shape (A B : array2) : bool :=
  (ncols A =? ncols B) && (nrows A =? nrows B).

Fixpoint zip_with {A B C : Type} (f : A -> B -> C) (xs : list A) (ys : list B)
  : list C :=
  match xs, ys with
  | x :: xs', y :: ys' => f x y :: zip_with f xs' ys'
  | _, _ => []
  end.

(** Elementwise binary operation on 1-D operands with numpy's broadcasting:
    the lengths agree, or one operand has length 1 and is repeated. *)
Definition bcast2 {A B C : Type} (f : A -> B -> C) (xs : list A) (ys : list B)
  : exc (list C) :=
  if length xs =? length ys then Ok (zip_with f xs ys)
  else match xs, ys with
       | [x], _ => Ok (map (f x) ys)
       | _, [y] => Ok (map (fun x => f x y) xs)
       | _, _ => Raise ValueError
       end.

(** Elementwise binary operation on two 2-D arrays of one shape.  (numpy
    would also broadcast an axis of length 1; the matrices of one
    correlation sequence share a shape, and the embedding raises on any
    other pair.) *)
Definition ew2 (f : flt -> flt -> flt) (A B : array2) : exc array2 :=
  if same_shape A B
  then Ok (Array2 (ncols A) (zip_with (zip_with f) (rows A) (rows B)))
  else Raise ValueError.

(** Elementwise operation with a scalar. *)
Definition map2 (f : flt -> flt) (A : array2) : array2 :=
  Array2 (ncols A) (map (map f) (rows A)).

Definition column (j : nat) (A : array2) : vec :=
  map (fun r => nth j r fzero) (rows A).

(** [A.T] *)
Definition transpose (A : array2) : array2 :=
  Array2 (nrows A) (map (fun j => column j A) (seq 0 (ncols A))).

(** [A[a:b, c:d]] *)
Definition slice_rows (a b : option Z) (A : array2) : array2 :=
  Array2 (ncols A) (py_slice a b (rows A)).

Definition slice_cols (c d : option Z) (A : array2) : array2 :=
  Array2 (length (py_slice c d (seq 0 (ncols A))))
         (map (py_slice c d) (rows A)).

Definition slice2 (a b c d : option Z) (A : array2) : array2 :=
  slice_cols c d (slice_rows a b A).

(** [A[a:b, k]]: a 1-D array; [k] out of range raises. *)
Definition slice_col_at (a b : option Z) (k : Z) (A : array2) : exc vec :=
  j <- py_index (seq 0 (ncols A)) k ;;
  Ok (column j (slice_rows a b A)).

(** Inner product, accumulated from 0 in index order. *)
Definition dot (u v : vec) : flt :=
  fold_left (fun acc p => fadd acc (fmul (fst p) (snd p))) (combine u v) fzero.

(** [u @ v] for 1-D operands. *)
Definition vdot (u v : vec) : exc flt :=
  if length u =? length v then Ok (dot u v) else Raise ValueError.

(** [A @ v] for a 2-D [A] and a 1-D [v]. *)
Definition matvec (A : array2) (v : vec) : exc vec :=
  if ncols A =? length v then Ok (map (fun r => dot r v) (rows A))
  else Raise ValueError.

(** [v @ A] for a 1-D [v] and a 2-D [A]. *)
Definition vecmat (v : vec) (A : array2) : exc vec :=
  if length v =? nrows A
  then Ok (map (fun j => dot v (column j A)) (seq 0 (ncols A)))
  else Raise ValueError.

(** [A @ B] for 2-D operands. *)
Definition matmul2 (A B : array2) : exc array2 :=
  if ncols A =? nrows B
  then Ok (Array2 (ncols B)
             (map (fun r => map (fun j => dot r (column j B)) (seq 0 (ncols B)))
                  (rows A)))
  else Raise ValueError.

(** [numpy.where(cond, v, 0.0)] *)
Definition np_where0 (cond : list bool) (v : vec) : exc vec :=
  bcast2 (fun (c : bool) x => if c then x else fzero) cond v.

(** Python's [sum(mems)]: the accumulator starts at the integer [0], so
    the sum of no matrix is that integer ([None] here), and otherwise
    [((0 + mems[0]) + mems[1]) + ...]. *)
Definition py_sum (mems : list array2) : exc (option array2) :=
  match mems with
  | [] => Ok None
  | M :: rest =>
      s <- foldM (ew2 fadd) rest (map2 (fadd fzero) M) ;;
      Ok (Some s)
  end.

(** [A + s] for [s] the value of a [sum(...)]. *)
Definition add_sum (A : array2) (s : option array2) : exc array2 :=
  match s with
  | None => Ok (map2 (fun x => fadd x fzero) A)
  | Some B => ew2 fadd A B
  end.

(** A square matrix is singular when it sends a nonzero vector of
    rationals to zero. *)
Definition singular (A : array2) : Prop :=
  ncols A = nrows A /\
  exists v : list Qc,
    length v = ncols A /\
    (exists x, In x v /\ x <> 0%Qc) /\
    map (fun r => dot r (map Fin v)) (rows A) = repeat fzero (nrows A).

(** ** [extq/memory/_dga.py] *)

Module Memory.

(** Per-trajectory arguments of the transforms, as [zip] pairs them. *)
Fixpoint zip3 {A B C : Type} (xs : list A) (ys : list B) (zs : list C)
  : list (A * B * C) :=
  match xs, ys, zs with
  | x :: xs', y :: ys', z :: zs' => (x, y, z) :: zip3 xs' ys' zs'
  | _, _, _ => []
  end.

Fixpoint zip4 {A B C D : Type}
  (ws : list A) (xs : list B) (ys : list C) (zs : list D)
  : list (A * B * C * D) :=
  match ws, xs, ys, zs with
  | w :: ws', x :: xs', y :: ys', z :: zs' => (w, x, y, z) :: zip4 ws' xs' ys' zs'
  | _, _, _, _ => []
  end.

(** [_memlags(lag, mem)] *)
Definition _memlags (lag mem : Z) : exc (list Z) :=
  r <- py_mod lag (mem + 1) ;;
  assert (r =? 0)%Z ;;;
  step <- py_floordiv lag (mem + 1) ;;
  np_arange 0 (lag + 1) step.

(** [reweight_transform(coeffs, basis, weights)] *)
Definition reweight_transform (coeffs : vec) (basis : list array2)
  (weights : list vec) : exc (list vec) :=
  mapM (fun xw : array2 * vec =>
          let (x_w, w) := xw in
          c0 <- py_index coeffs 0 ;;
          p <- matvec x_w (py_slice (Some 1%Z) None coeffs) ;;
          bcast2 fmul w (map (fadd c0) p))
       (combine basis weights).

(** The body of the loop of [forecast_transform]:
    [g_f + np.where(d_f, y_f @ coeffs[:-1], 0.0) / coeffs[-1]]. *)
Definition forecast_frames (coeffs : vec) (y_f : array2) (d_f : list bool)
  (g_f : vec) : exc vec :=
  p <- matvec y_f (py_slice None (Some (-1)%Z) coeffs) ;;
  num <- np_where0 d_f p ;;
  c <- py_index coeffs (-1) ;;
  bcast2 fadd g_f (map (fun v => fdiv v c) num).

(** [forecast_transform(coeffs, basis, in_domain, guess)] *)
Definition forecast_transform (coeffs : vec) (basis : list array2)
  (in_domain : list (list bool)) (guess : list vec) : exc (list vec) :=
  mapM (fun ydg : array2 * list bool * vec =>
          let '(y_f, d_f, g_f) := ydg in forecast_frames coeffs y_f d_f g_f)
       (zip3 basis in_domain guess).

(** The denominator of [aftcast_transform]:
    [com = coeffs[0] + x_w @ coeffs[1:n]] with [n = x_w.shape[1] + 1]. *)
Definition aftcast_com (coeffs : vec) (x_w : array2) : exc vec :=
  let n := Z.of_nat (ncols x_w + 1) in
  c0 <- py_index coeffs 0 ;;
  p <- matvec x_w (py_slice (Some 1%Z) (Some n) coeffs) ;;
  Ok (map (fadd c0) p).

(** The body of the loop of [aftcast_transform]:
    [g_b + np.where(d_b, x_b @ coeffs[n:], 0.0) / com]. *)
Definition aftcast_frames (coeffs : vec) (x_w x_b : array2) (d_b : list bool)
  (g_b : vec) : exc vec :=
  let n := Z.of_nat (ncols x_w + 1) in
  com <- aftcast_com coeffs x_w ;;
  q <- matvec x_b (py_slice (Some n) None coeffs) ;;
  num <- np_where0 d_b q ;;
  quo <- bcast2 fdiv num com ;;
  bcast2 fadd g_b quo.

(** [aftcast_transform(coeffs, w_basis, basis, in_domain, guess)] *)
Definition aftcast_transform (coeffs : vec) (w_basis basis : list array2)
  (in_domain : list (list bool)) (guess : list vec) : exc (list vec) :=
  mapM (fun xxdg : array2 * array2 * list bool * vec =>
          let '(x_w, x_b, d_b, g_b) := xxdg in
          aftcast_frames coeffs x_w x_b d_b g_b)
       (zip4 w_basis basis in_domain guess).

Section Collaborators.

(** [_memory.memory(mats)]: the memory-correction matrices of a sequence
    of correlation matrices. *)
Variable memory : list array2 -> exc (list array2).

(** [linalg.solve(a, b)] for a 1-D and for a 2-D right-hand side. *)
Variable solve : array2 -> vec -> exc vec.
Variable solve2 : array2 -> array2 -> exc array2.

(** [mats[1] - mats[0] + sum(mems)] *)
Definition generator (mats mems : list array2) : exc array2 :=
  m1 <- py_index mats 1 ;;
  m0 <- py_index mats 0 ;;
  d <- ew2 fsub m1 m0 ;;
  s <- py_sum mems ;;
  add_sum d s.

(** [forward_coeffs(mats)] *)
Definition forward_coeffs (mats : list array2) : exc vec :=
  mems <- memory mats ;;
  gen <- generator mats mems ;;
  let a := slice2 None (Some (-1)%Z) None (Some (-1)%Z) gen in
  b <- slice_col_at None (Some (-1)%Z) (-1) gen ;;
  c <- solve a (map fneg b) ;;
  Ok (c ++ [fone]).

(** [backward_coeffs(mats)] *)
Definition backward_coeffs (mats : list array2) : exc vec :=
  mems <- memory mats ;;
  m0 <- py_index mats 0 ;;
  rhs <- generator mats mems ;;
  gen <- solve2 m0 rhs ;;
  m0' <- py_index mats 0 ;;
  let a := slice2 (Some 1%Z) None (Some 1%Z) None (transpose gen) in
  b <- slice_col_at (Some 1%Z) None 0 (transpose gen) ;;
  c <- solve a (map fneg b) ;;
  solve (transpose m0') (fone :: c).

(** [integral_solve(mats, lag, mem)] *)
Definition integral_solve (mats : list array2) (lag mem : Z) : exc flt :=
  assert (Z.of_nat (length mats) =? mem + 2)%Z ;;;
  r <- py_mod lag (mem + 1) ;;
  assert (r =? 0)%Z ;;;
  dlag <- py_floordiv lag (mem + 1) ;;
  mems <- memory mats ;;
  m0 <- py_index mats 0 ;;
  rhs <- generator mats mems ;;
  gen <- solve2 m0 rhs ;;
  let a := slice2 (Some 1%Z) (Some (-1)%Z) (Some 1%Z) (Some (-1)%Z) gen in
  b <- slice_col_at (Some 1%Z) (Some (-1)%Z) (-1) gen ;;
  cf <- solve a (map fneg b) ;;
  let forward_coeffs := cf ++ [fone] in
  let a' := slice2 (Some 1%Z) (Some (-1)%Z) (Some 1%Z) (Some (-1)%Z)
              (transpose gen) in
  b' <- slice_col_at (Some 1%Z) (Some (-1)%Z) 0 (transpose gen) ;;
  cb <- solve a' (map fneg b') ;;
  let backward_coeffs := fone :: cb in
  t <- vecmat backward_coeffs (slice2 None (Some (-1)%Z) (Some 1%Z) None gen) ;;
  s <- vdot t forward_coeffs ;;
  Ok (fdiv s (of_int dlag)).

(** [reweight_solve], [forecast_solve], [aftcast_solve] *)
Definition reweight_solve (mats : list array2) (basis : list array2)
  (weights : list vec) : exc (list vec) :=
  coeffs <- backward_coeffs mats ;;
  reweight_transform coeffs basis weights.

Definition forecast_solve (mats : list array2) (basis : list array2)
  (in_domain : list (list bool)) (guess : list vec) : exc (list vec) :=
  coeffs <- forward_coeffs mats ;;
  forecast_transform coeffs basis in_domain guess.

Definition aftcast_solve (mats : list array2) (w_basis basis : list array2)
  (in_domain : list (list bool)) (guess : list vec) : exc (list vec) :=
  coeffs <- backward_coeffs mats ;;
  aftcast_transform coeffs w_basis basis in_domain guess.

(** The body shared by every top-level estimator:
    [mats = [_matrix.<kind>_matrix(..., t, ...) for t in _memlags(lag, mem)]]
    followed by one of the [*_solve] functions.  [matrix_at t] stands for
    the call of the correlation-matrix builder of [extq/memory/_matrix.py]
    at lag time [t], all its other arguments fixed. *)
Definition estimator {R : Type} (matrix_at : Z -> exc array2)
  (solve_step : list array2 -> exc R) (lag mem : Z) : exc R :=
  lags <- _memlags lag mem ;;
  mats <- mapM matrix_at lags ;;
  solve_step mats.

Definition reweight (reweight_matrix : Z -> exc array2)
  (basis : list array2) (weights : list vec) (lag mem : Z) :=
  estimator reweight_matrix (fun mats => reweight_solve mats basis weights)
    lag mem.

Definition forward_committor (forward_committor_matrix : Z -> exc array2)
  (basis : list array2) (in_domain : list (list bool)) (guess : list vec)
  (lag mem : Z) :=
  estimator forward_committor_matrix
    (fun mats => forecast_solve mats basis in_domain guess) lag mem.

Definition forward_mfpt (forward_mfpt_matrix : Z -> exc array2)
  (basis : list array2) (in_domain : list (list bool)) (guess : list vec)
  (lag mem : Z) :=
  estimator forward_mfpt_matrix
    (fun mats => forecast_solve mats basis in_domain guess) lag mem.

Definition forward_feynman_kac (forward_feynman_kac_matrix : Z -> exc array2)
  (basis : list array2) (in_domain : list (list bool)) (guess : list vec)
  (lag mem : Z) :=
  estimator forward_feynman_kac_matrix
    (fun mats => forecast_solve mats basis in_domain guess) lag mem.

Definition backward_committor (backward_committor_matrix : Z -> exc array2)
  (w_basis basis : list array2) (in_domain : list (list bool))
  (guess : list vec) (lag mem : Z) :=
  estimator backward_committor_matrix
    (fun mats => aftcast_solve mats w_basis basis in_domain guess) lag mem.

Definition backward_mfpt (backward_mfpt_matrix : Z -> exc array2)
  (w_basis basis : list array2) (in_domain : list (list bool))
  (guess : list vec) (lag mem : Z) :=
  estimator backward_mfpt_matrix
    (fun mats => aftcast_solve mats w_basis basis in_domain guess) lag mem.

Definition backward_feynman_kac (backward_feynman_kac_matrix : Z -> exc array2)
  (w_basis basis : list array2) (in_domain : list (list bool))
  (guess : list vec) (lag mem : Z) :=
  estimator backward_feynman_kac_matrix
    (fun mats => aftcast_solve mats w_basis basis in_domain guess) lag mem.

(** The nine integral estimators differ only in the builder they call:
    each is [integral_solve] on the matrices at the memory lags. *)
Definition integral_estimator (integral_matrix : Z -> exc array2)
  (lag mem : Z) : exc flt :=
  estimator integral_matrix (fun mats => integral_solve mats lag mem) lag mem.

Definition reweight_integral := integral_estimator.
Definition forward_committor_integral := integral_estimator.
Definition forward_mfpt_integral := integral_estimator.
Definition forward_feynman_kac_integral := integral_estimator.
Definition backward_committor_integral := integral_estimator.
Definition backward_mfpt_integral := integral_estimator.
Definition backward_feynman_kac_integral := integral_estimator.
Definition tpt_integral := integral_estimator.
Definition integral := integral_estimator.

(** *** The classic single-lag estimator

    The estimator the specification compares with: the correlation
    matrices at the lag times [0] and [lag] only, and the generator
    [correlation[1] - correlation[0]] with no memory term. *)

Definition classic_generator (c0 c1 : array2) : exc array2 := ew2 fsub c1 c0.

Definition classic_forward_coeffs (c0 c1 : array2) : exc vec :=
  gen <- classic_generator c0 c1 ;;
  let a := slice2 None (Some (-1)%Z) None (Some (-1)%Z) gen in
  b <- slice_col_at None (Some (-1)%Z) (-1) gen ;;
  c <- solve a (map fneg b) ;;
  Ok (c ++ [fone]).

Definition classic_backward_coeffs (c0 c1 : array2) : exc vec :=
  rhs <- classic_generator c0 c1 ;;
  gen <- solve2 c0 rhs ;;
  let a := slice2 (Some 1%Z) None (Some 1%Z) None (transpose gen) in
  b <- slice_col_at (Some 1%Z) None 0 (transpose gen) ;;
  c <- solve a (map fneg b) ;;
  solve (transpose c0) (fone :: c).

Definition classic_integral_solve (c0 c1 : array2) (lag : Z) : exc flt :=
  rhs <- classic_generator c0 c1 ;;
  gen <- solve2 c0 rhs ;;
  let a := slice2 (Some 1%Z) (Some (-1)%Z) (Some 1%Z) (Some (-1)%Z) gen in
  b <- slice_col_at (Some 1%Z) (Some (-1)%Z) (-1) gen ;;
  cf <- solve a (map fneg b) ;;
  let a' := slice2 (Some 1%Z) (Some (-1)%Z) (Some 1%Z) (Some (-1)%Z)
              (transpose gen) in
  b' <- slice_col_at (Some 1%Z) (Some (-1)%Z) 0 (transpose gen) ;;
  cb <- solve a' (map fneg b') ;;
  t <- vecmat (fone :: cb) (slice2 None (Some (-1)%Z) (Some 1%Z) None gen) ;;
  s <- vdot t (cf ++ [fone]) ;;
  Ok (fdiv s (of_int lag)).

(** The classic estimator: build the two matrices, then solve. *)
Definition classic_estimator {R : Type} (matrix_at : Z -> exc array2)
  (classic_step : array2 -> array2 -> exc R) (lag : Z) : exc R :=
  c0 <- matrix_at 0%Z ;;
  c1 <- matrix_at lag ;;
  classic_step c0 c1.

End Collaborators.

End Memory.

(** ** [extq/dga/_xdga.py] *)

Module XDGA.

(** An n-dimensional array: its shape and the entry at each index tuple.
    Only the entries at indices inside the shape are meaningful. *)
Record ndarray (A : Type) : Type := NdArray {
  shape : list nat;
  item : list nat -> A
}.

Arguments NdArray {A} shape item.

Definition ndim {A : Type} (a : ndarray A) : nat := length (shape a).

(** [numpy.zeros(shape)] and [numpy.full(shape, v)] *)
Definition np_full {A : Type} (sh : list nat) (v : A) : ndarray A :=
  NdArray sh (fun _ => v).

Definition np_zeros (sh : list nat) : ndarray flt := np_full sh fzero.

Fixpoint index_eqb (a b : list nat) : bool :=
  match a, b with
  | [], [] => true
  | x :: a', y :: b' => (x =? y) && index_eqb a' b'
  | _, _ => false
  end.

(** [r[idx] = v] *)
Definition nd_set {A : Type} (r : ndarray A) (idx : list nat) (v : A)
  : ndarray A :=
  NdArray (shape r) (fun k => if index_eqb k idx then v else item r k).

(** The [n]-th matrix of a stack of matrices. *)
Definition matrix_at (r : ndarray flt) (n : nat) : nat -> nat -> flt :=
  fun i j => item r [n; i; j].

(** The entries of a [dim] x [dim] matrix, row by row. *)
Definition tabulate (dim : nat) (A : nat -> nat -> flt) : list vec :=
  map (fun i => map (fun j => A i j) (seq 0 dim)) (seq 0 dim).

(** Product of two [dim] x [dim] matrices. *)
Definition matmul (dim : nat) (A B : nat -> nat -> flt) : nat -> nat -> flt :=
  fun i j =>
    fold_left (fun acc k => fadd acc (fmul (A i k) (B k j))) (seq 0 dim) fzero.

(** [r[n] @ r[n+1] @ ... @ r[n+window-1]], for [window >= 1]. *)
Definition window_product (dim : nat) (r : ndarray flt) (n window : nat)
  : nat -> nat -> flt :=
  fold_left (fun P k => matmul dim P (matrix_at r (n + k)))
            (seq 1 (window - 1)) (matrix_at r n).

(** Modelled from the spec: [moving_matmul] of [extq/moving_semigroup],
    which is not among the sources.  Its contract: given N square
    matrices, it returns N - window + 1 matrices, each the ordered
    product of [window] consecutive input matrices.  The contract covers
    [1 <= window <= N]; the model raises outside of it. *)
Definition moving_matmul (r : ndarray flt) (window : Z) : exc (ndarray flt) :=
  match shape r with
  | [N; dim; dim'] =>
      if (dim =? dim') && (1 <=? window)%Z && (window <=? Z.of_nat N)%Z
      then
        let w := Z.to_nat window in
        Ok (NdArray [N - w + 1; dim; dim]
              (fun idx =>
                 match idx with
                 | [n; i; j] => window_product dim r n w i j
                 | _ => fzero
                 end))
      else Raise ValueError
  | _ => Raise ValueError
  end.

(** The loop nest of [_forward_transitions_helper], which fills [r], from
    the innermost statement outwards: the body of [for j], the body of
    [for i], the body of [for n] and the nest on [numpy.zeros]. *)
Definition forward_cell (ni : nat) (m f : ndarray flt) (n i : nat)
  (r : ndarray flt) (j : nat) : ndarray flt :=
  let r := nd_set r [n; i; j] (item m [i; j; n]) in
  nd_set r [n; i; ni]
    (fadd (item r [n; i; ni]) (fmul (item m [i; j; n]) (item f [i; j; n]))).

Definition forward_row (ni : nat) (m : ndarray flt) (d : ndarray bool)
  (f g : ndarray flt) (n : nat) (r : ndarray flt) (i : nat) : ndarray flt :=
  if item d [i; n]
  then fold_left (forward_cell ni m f n i) (seq 0 ni) r
  else nd_set r [n; i; ni] (item g [i; n]).

Definition forward_step (ni : nat) (m : ndarray flt) (d : ndarray bool)
  (f g : ndarray flt) (r : ndarray flt) (n : nat) : ndarray flt :=
  let r := fold_left (forward_row ni m d f g n) (seq 0 ni) r in
  nd_set r [n; ni; ni] fone.

Definition _forward_transitions_loop (ni nt : nat)
  (m : ndarray flt) (d : ndarray bool) (f g : ndarray flt) : ndarray flt :=
  fold_left (forward_step ni m d f g) (seq 0 nt)
    (np_zeros [nt; ni + 1; ni + 1]).

(** The discretized integral of the source term along transition [n]:
    the sum over the first [k] columns [j] of [m[i,j,n] * f[i,j,n]],
    accumulated in index order on the start value [a]. *)
Definition row_integral (m f : ndarray flt) (n i k : nat) (a : flt) : flt :=
  fold_left (fun acc j => fadd acc (fmul (item m [i; j; n]) (item f [i; j; n])))
            (seq 0 k) a.

(** The same sum over the first [k] rows [i], for column [j]. *)
Definition column_integral (m f : ndarray flt) (n j k : nat) (a : flt) : flt :=
  fold_left (fun acc i => fadd acc (fmul (item m [i; j; n]) (item f [i; j; n])))
            (seq 0 k) a.

(** [_forward_transitions_helper(ni, nt, m, d, f, g, lag, dtype)]; [dtype]
    is the element type of [r], which is [flt] here. *)
Definition _forward_transitions_helper (ni nt : nat)
  (m : ndarray flt) (d : ndarray bool) (f g : ndarray flt) (lag : Z)
  : exc (ndarray flt) :=
  moving_matmul (_forward_transitions_loop ni nt m d f g) lag.

(** The loop nest of [_backward_transitions_helper], in the same order:
    the body of [for i], of [for j], of [for n], and the nest. *)
Definition backward_cell (ni : nat) (m f : ndarray flt) (n j : nat)
  (r : ndarray flt) (i : nat) : ndarray flt :=
  let r := nd_set r [n; i; j] (item m [i; j; n]) in
  nd_set r [n; ni; j]
    (fadd (item r [n; ni; j]) (fmul (item m [i; j; n]) (item f [i; j; n]))).

Definition backward_column (ni : nat) (m : ndarray flt) (d : ndarray bool)
  (f g : ndarray flt) (n : nat) (r : ndarray flt) (j : nat) : ndarray flt :=
  if item d [j; n + 1]
  then fold_left (backward_cell ni m f n j) (seq 0 ni) r
  else nd_set r [n; ni; j] (item g [j; n + 1]).

Definition backward_step (ni : nat) (m : ndarray flt) (d : ndarray bool)
  (f g : ndarray flt) (r : ndarray flt) (n : nat) : ndarray flt :=
  let r := fold_left (backward_column ni m d f g n) (seq 0 ni) r in
  nd_set r [n; ni; ni] fone.

Definition _backward_transitions_loop (ni nt : nat)
  (m : ndarray flt) (d : ndarray bool) (f g : ndarray flt) : ndarray flt :=
  fold_left (backward_step ni m d f g) (seq 0 nt)
    (np_zeros [nt; ni + 1; ni + 1]).

(** [_backward_transitions_helper(ni, nt, m, d, f, g, lag, dtype)] *)
Definition _backward_transitions_helper (ni nt : nat)
  (m : ndarray flt) (d : ndarray bool) (f g : ndarray flt) (lag : Z)
  : exc (ndarray flt) :=
  moving_matmul (_backward_transitions_loop ni nt m d f g) lag.

(** Predicates on a matrix of size [(ni+1) x (ni+1)]: its last row, its
    last column, is the unit vector with 1 in the last position; all its
    entries are finite. *)
Definition unit_last_row (ni : nat) (A : nat -> nat -> flt) : Prop :=
  forall j, j <= ni -> A ni j = if j =? ni then fone else fzero.

Definition unit_last_column (ni : nat) (A : nat -> nat -> flt) : Prop :=
  forall i, i <= ni -> A i ni = if i =? ni then fone else fzero.

Definition finite_matrix (ni : nat) (A : nat -> nat -> flt) : Prop :=
  forall i j, i <= ni -> j <= ni -> finite (A i j).

(** The transition weights, the source term and the guess are real
    numbers at every index of their shapes [(ni,ni,nt)] and [(ni,nt+1)]. *)
Definition finite_inputs (ni nt : nat) (m f g : ndarray flt) : Prop :=
  (forall i j n, i < ni -> j < ni -> n < nt ->
     finite (item m [i; j; n]) /\ finite (item f [i; j; n])) /\
  (forall i n, i < ni -> n <= nt -> finite (item g [i; n])).

(** One entry of the [zip] over the seven argument sequences. *)
Record trajectory : Type := Trajectory {
  x : list array2;      (* test basis, one array per index *)
  y : list array2;      (* basis, one array per index *)
  w : vec;              (* weights *)
  m : ndarray flt;      (* transitions *)
  d : ndarray bool;     (* in_domain *)
  f : ndarray flt;      (* function, a scalar or a full array *)
  g : ndarray flt       (* guess *)
}.

Fixpoint zip7 (xs ys : list (list array2)) (ws : list vec)
  (ms : list (ndarray flt)) (ds : list (ndarray bool))
  (fs gs : list (ndarray flt)) : list trajectory :=
  match xs, ys, ws, ms, ds, fs, gs with
  | x :: xs', y :: ys', w :: ws', m :: ms', d :: ds', f :: fs', g :: gs' =>
      Trajectory x y w m d f g :: zip7 xs' ys' ws' ms' ds' fs' gs'
  | _, _, _, _, _, _, _ => []
  end.

(** The checks at the head of the loop body, the same in
    [forward_extended_feynman_kac] and [backward_extended_feynman_kac]:
    the five assertions, the unpacking of [m.shape] and the broadcast of
    a scalar [function].  Returns [ni], [nt] and the function array. *)
Definition validate (t : trajectory) (lag : Z)
  : exc (nat * nat * ndarray flt) :=
  assert (forallb (fun v => feqb v fzero) (py_slice (Some (- lag)%Z) None (w t))) ;;;
  match shape (m t) with
  | [ni; _; nt] =>
      let f := if ndim (f t) =? 0 then np_full [ni; ni; nt] (item (f t) [])
               else f t in
      assert (index_eqb (shape (m t)) [ni; ni; nt]) ;;;
      assert (index_eqb (shape (d t)) [ni; nt + 1]) ;;;
      assert (index_eqb (shape f) [ni; ni; nt]) ;;;
      assert (index_eqb (shape (g t)) [ni; nt + 1]) ;;;
      Ok (ni, nt, f)
  | _ => Raise ValueError
  end.

(** The preconditions on one trajectory: the last [lag] weights are zero,
    and the arrays have the shapes [(ni,ni,nt)], [(ni,nt+1)], [(ni,ni,nt)]
    (or none, for a scalar [function]) and [(ni,nt+1)]. *)
Definition weight_tail_zero (w : vec) (lag : Z) : Prop :=
  Forall (fun v => v = fzero) (skipn (length w - Z.to_nat lag) w).

Definition shapes_agree (t : trajectory) (ni nt : nat) : Prop :=
  shape (m t) = [ni; ni; nt] /\
  shape (d t) = [ni; nt + 1] /\
  (shape (f t) = [] \/ shape (f t) = [ni; ni; nt]) /\
  shape (g t) = [ni; nt + 1].

Section Engine.

(** The running sums [(a, b)], their update by one trajectory (the loops
    over the index pairs, which call [linalg.scale_rows]) and the closing
    [transform(linalg.solve(a, b), basis, guess)]; [linalg] is not among
    the sources. *)
Variable sums : Type.
Variable sums0 : sums.
Variable result : Type.
Variable forward_accumulate :
  sums -> trajectory -> ndarray flt -> Z -> exc sums.
Variable backward_accumulate :
  sums -> trajectory -> ndarray flt -> Z -> exc sums.
Variable solve_transform :
  sums -> list (list array2) -> list (ndarray flt) -> exc result.

(** The body of the loop over the trajectories. *)
Definition forward_trajectory (ab : sums) (t : trajectory) (lag : Z)
  : exc sums :=
  v <- validate t lag ;;
  let '(ni, nt, f) := v in
  r <- _forward_transitions_helper ni nt (m t) (d t) f (g t) lag ;;
  forward_accumulate ab t r lag.

Definition backward_trajectory (ab : sums) (t : trajectory) (lag : Z)
  : exc sums :=
  v <- validate t lag ;;
  let '(ni, nt, f) := v in
  r <- _backward_transitions_helper ni nt (m t) (d t) f (g t) lag ;;
  backward_accumulate ab t r lag.

(** [forward_extended_feynman_kac(basis, weights, transitions, in_domain,
    function, guess, lag, test_basis)] *)
Definition forward_extended_feynman_kac
  (basis : list (list array2)) (weights : list vec)
  (transitions : list (ndarray flt)) (in_domain : list (ndarray bool))
  (function guess : list (ndarray flt)) (lag : Z)
  (test_basis : option (list (list array2))) : exc result :=
  let test_basis := match test_basis with None => basis | Some tb => tb end in
  ab <- foldM (fun ab t => forward_trajectory ab t lag)
          (zip7 test_basis basis weights transitions in_domain function guess)
          sums0 ;;
  solve_transform ab basis guess.

(** [backward_extended_feynman_kac(...)] *)
Definition backward_extended_feynman_kac
  (basis : list (list array2)) (weights : list vec)
  (transitions : list (ndarray flt)) (in_domain : list (ndarray bool))
  (function guess : list (ndarray flt)) (lag : Z)
  (test_basis : option (list (list array2))) : exc result :=
  let test_basis := match test_basis with None => basis | Some tb => tb end in
  ab <- foldM (fun ab t => backward_trajectory ab t lag)
          (zip7 test_basis basis weights transitions in_domain function guess)
          sums0 ;;
  solve_transform ab basis guess.

(** A 0-dimensional array. *)
Definition scalar (v : flt) : ndarray flt := NdArray [] (fun _ => v).

(** The committor and MFPT wrappers pass [numpy.zeros(len(weights))] and
    [numpy.ones(len(weights))] as [function]: one scalar per trajectory. *)
Definition forward_extended_committor basis (weights : list vec)
  transitions in_domain guess lag test_basis :=
  forward_extended_feynman_kac basis weights transitions in_domain
    (repeat (scalar fzero) (length weights)) guess lag test_basis.

Definition forward_extended_mfpt basis (weights : list vec)
  transitions in_domain guess lag test_basis :=
  forward_extended_feynman_kac basis weights transitions in_domain
    (repeat (scalar fone) (length weights)) guess lag test_basis.

Definition backward_extended_committor basis (weights : list vec)
  transitions in_domain guess lag test_basis :=
  backward_extended_feynman_kac basis weights transitions in_domain
    (repeat (scalar fzero) (length weights)) guess lag test_basis.

Definition backward_extended_mfpt basis (weights : list vec)
  transitions in_domain guess lag test_basis :=
  backward_extended_feynman_kac basis weights transitions in_domain
    (repeat (scalar fone) (length weights)) guess lag test_basis.

End Engine.

(** [numpy.array(rows)] on a list of 1-D arrays: the 2-D array with
    these rows.  Rows of different lengths are refused (numpy 1.24 and
    later raise [ValueError] for such a ragged sequence). *)
Definition np_array_rows (rows : list vec) : exc (list vec) :=
  match rows with
  | [] => Ok []
  | r :: rest =>
      if forallb (fun r' => length r' =? length r) rest then Ok rows
      else Raise ValueError
  end.

(** [transform(coeffs, basis, guess)]: for every trajectory the array of
    the rows [yi @ coeffs + gi], one for each index.  Each guess array,
    of shape [(n_indices, n_frames)], is given by its rows. *)
Definition transform (coeffs : vec) (basis : list (list array2))
  (guess : list (list vec)) : exc (list (list vec)) :=
  mapM (fun yg : list array2 * list vec =>
          let (y, g) := yg in
          rows <- mapM (fun yigi : array2 * vec =>
                          let (yi, gi) := yigi in
                          p <- matvec yi coeffs ;;
                          bcast2 fadd p gi)
                       (combine y g) ;;
          np_array_rows rows)
       (combine basis guess).

End XDGA.

(** ** Example data *)

Module Example.
Import XDGA.

(** Two index values, two transitions. *)
Definition ex_m : ndarray flt :=
  NdArray [2; 2; 2]
    (fun idx => match idx with
                | [i; j; n] => of_int (Z.of_nat (1 + i + 2 * j + 4 * n))
                | _ => NaN
                end).

Definition ex_f : ndarray flt :=
  NdArray [2; 2; 2]
    (fun idx => match idx with
                | [i; j; n] => of_int (Z.of_nat (10 + i + 2 * j + 4 * n))
                | _ => NaN
                end).

Definition ex_d : ndarray bool :=
  NdArray [2; 3]
    (fun idx => match idx with
                | [i; n] => i =? n
                | _ => false
                end).

Definition ex_g : ndarray flt :=
  NdArray [2; 3]
    (fun idx => match idx with
                | [i; n] => of_int (Z.of_nat (100 + i + 2 * n))
                | _ => NaN
                end).

(** A trajectory of three frames that meets the preconditions for
    [lag = 2], with a scalar [function], and one whose weight tail is
    not zero. *)
Definition ex_trajectory : trajectory :=
  Trajectory [] [] [of_int 1; fzero; fzero] ex_m ex_d (scalar fzero) ex_g.

Definition ex_bad_trajectory : trajectory :=
  Trajectory [] [] [fzero; of_int 1; fzero] ex_m ex_d (scalar fzero) ex_g.

(** A trajectory whose transitions array lacks the time axis. *)
Definition ex_flat_trajectory : trajectory :=
  Trajectory [] [] [of_int 1; fzero; fzero]
    (NdArray [2; 2] (fun _ => fone)) ex_d (scalar fzero) ex_g.

(** Cramer's rule for the systems of size 0, 1 and 2 with rational
    entries; it raises on every other input.  It meets the contract of
    [linalg.solve] and serves as the solver of the examples. *)
Definition cramer (A : array2) (b : vec) : exc vec :=
  match A, b with
  | Array2 0 [], [] => Ok []
  | Array2 1 [[Fin a]], [Fin y] =>
      if Qc_eq_dec a 0%Qc then Raise LinAlgError else Ok [Fin (y / a)%Qc]
  | Array2 2 [[Fin a; Fin b]; [Fin c; Fin d]], [Fin y; Fin z] =>
      let det := (a * d - b * c)%Qc in
      if Qc_eq_dec det 0%Qc then Raise LinAlgError
      else Ok [Fin ((y * d - b * z) / det)%Qc; Fin ((a * z - y * c) / det)%Qc]
  | _, _ => Raise LinAlgError
  end.

(** The same for a right-hand side of one or two columns. *)
Definition cramer2 (A B : array2) : exc array2 :=
  match B with
  | Array2 1 [[y]] =>
      x <- cramer A [y] ;;
      match x with
      | [x0] => Ok (Array2 1 [[x0]])
      | _ => Raise LinAlgError
      end
  | Array2 2 [[y0; z0]; [y1; z1]] =>
      x <- cramer A [y0; y1] ;;
      z <- cramer A [z0; z1] ;;
      match x, z with
      | [x0; x1], [w0; w1] => Ok (Array2 2 [[x0; w0]; [x1; w1]])
      | _, _ => Raise LinAlgError
      end
  | _ => Raise LinAlgError
  end.

(** Two correlation matrices of size 2. *)
Definition ex_c0 : array2 :=
  Array2 2 [[of_int 2; of_int 1]; [of_int 1; of_int 1]].

Definition ex_c1 : array2 :=
  Array2 2 [[of_int 1; of_int 3]; [of_int 0; of_int 1]].

(** Two correlation matrices, the first of them not symmetric (as with a
    test basis that differs from the basis). *)
Definition ex_n0 : array2 :=
  Array2 2 [[of_int 2; of_int 1]; [of_int 0; of_int 1]].

Definition ex_n1 : array2 :=
  Array2 2 [[of_int 1; of_int 3]; [of_int 0; of_int 2]].

(** A memory extractor for two matrices: no memory term. *)
Definition no_memory (mats : list array2) : exc (list array2) := Ok [].

End Example.

(** * Properties *)

Unset Implicit Arguments.

(** Equality of two closed computations on rationals: evaluate, then
    compare the rationals of the two sides as fractions. *)
Ltac by_computation :=
  vm_compute;
  repeat match goal with
         | |- Ok _ = Ok _ => f_equal
         | |- _ :: _ = _ :: _ => f_equal
         | |- Fin _ = Fin _ => f_equal; apply Qc_is_canon; reflexivity
         | |- _ => reflexivity
         end.

(** ** Arithmetic of [flt] *)

Lemma fadd_0_r (a : flt) : fadd a fzero = a.
Proof.
  destruct a as [q | s | ]; simpl; trivial.
  now rewrite Qcplus_0_r.
Qed.

Lemma fadd_0_l (a : flt) : fadd fzero a = a.
Proof.
  destruct a as [q | s | ]; simpl; trivial.
  now rewrite Qcplus_0_l.
Qed.

Lemma fmul_0_l (a : flt) : finite a -> fmul fzero a = fzero.
Proof.
  destruct a as [q | s | ]; simpl; try contradiction.
  intros _. now rewrite Qcmult_0_l.
Qed.

Lemma fmul_0_r (a : flt) : finite a -> fmul a fzero = fzero.
Proof.
  destruct a as [q | s | ]; simpl; try contradiction.
  intros _. now rewrite Qcmult_0_r.
Qed.

Lemma fmul_1_l (a : flt) : finite a -> fmul fone a = a.
Proof.
  destruct a as [q | s | ]; simpl; try contradiction.
  intros _. now rewrite Qcmult_1_l.
Qed.

Lemma fmul_1_r (a : flt) : finite a -> fmul a fone = a.
Proof.
  destruct a as [q | s | ]; simpl; try contradiction.
  intros _. now rewrite Qcmult_1_r.
Qed.

Lemma finite_fadd (a b : flt) : finite a -> finite b -> finite (fadd a b).
Proof. destruct a, b; simpl; tauto. Qed.

Lemma finite_fmul (a b : flt) : finite a -> finite b -> finite (fmul a b).
Proof. destruct a, b; simpl; tauto. Qed.

Lemma finite_fzero : finite fzero.
Proof. exact I. Qed.

Lemma finite_fone : finite fone.
Proof. exact I. Qed.

(** ** Exceptions *)

Lemma bind_ok {A B : Type} (c : exc A) (k : A -> exc B) (b : B) :
  bind c k = Ok b -> exists a, c = Ok a /\ k a = Ok b.
Proof.
  destruct c as [e | a]; simpl; intros H; [discriminate | eauto].
Qed.

Lemma assert_ok (b : bool) : assert b = Ok tt <-> b = true.
Proof. destruct b; simpl; split; congruence. Qed.

Lemma assert_raise (b : bool) (e : pyerror) :
  assert b = Raise e -> b = false /\ e = AssertionError.
Proof. destruct b; simpl; intros H; inversion H; auto. Qed.

(** ** The per-transition matrices of the extended engine *)

Module XDGAProofs.
Import XDGA.

Lemma index_eqb_eq (a b : list nat) : index_eqb a b = true <-> a = b.
Proof.
  revert b; induction a as [| u a IH]; intros [| v b]; simpl;
    try (split; congruence).
  rewrite andb_true_iff, Nat.eqb_eq, IH. split.
  - intros [-> ->]; reflexivity.
  - intros H; inversion H; auto.
Qed.

Lemma index_eqb_refl (a : list nat) : index_eqb a a = true.
Proof. now apply index_eqb_eq. Qed.

Lemma item_set_same {A : Type} (r : ndarray A) idx v :
  item (nd_set r idx v) idx = v.
Proof. simpl. now rewrite index_eqb_refl. Qed.

Lemma item_set_other {A : Type} (r : ndarray A) idx idx' v :
  idx' <> idx -> item (nd_set r idx v) idx' = item r idx'.
Proof.
  intros H. simpl. destruct (index_eqb idx' idx) eqn:E; trivial.
  apply index_eqb_eq in E. contradiction.
Qed.

Lemma fold_seq_S {S : Type} (body : S -> nat -> S) (k : nat) (s : S) :
  fold_left body (seq 0 (Datatypes.S k)) s = body (fold_left body (seq 0 k) s) k.
Proof. rewrite seq_S, fold_left_app. reflexivity. Qed.

Lemma fold_seq_shape (body : ndarray flt -> nat -> ndarray flt) :
  (forall r i, shape (body r i) = shape r) ->
  forall k r, shape (fold_left body (seq 0 k) r) = shape r.
Proof.
  intros Hb k; induction k as [| k IH]; intros r; [reflexivity |].
  rewrite fold_seq_S, Hb. apply IH.
Qed.

(** Rewrites an entry read through [nd_set] at an index that differs
    from, or is, the index written. *)
Ltac set_other :=
  rewrite item_set_other by (intros E; inversion E; subst; lia || congruence).
Ltac set_same := rewrite item_set_same.

Section Forward.

Variables (ni : nat) (m : ndarray flt) (d : ndarray bool) (f g : ndarray flt).

Section Row.

Variables (n i : nat).

Let cells (k : nat) (r : ndarray flt) : ndarray flt :=
  fold_left (forward_cell ni m f n i) (seq 0 k) r.

Lemma cells_frame k r idx :
  (forall j, idx <> [n; i; j]) -> item (cells k r) idx = item r idx.
Proof.
  intros H. induction k as [| k IH]; [reflexivity |].
  unfold cells in *. rewrite fold_seq_S. unfold forward_cell at 1.
  rewrite !item_set_other by apply H. exact IH.
Qed.

Lemma cells_entry k r j :
  k <= ni -> j < k -> item (cells k r) [n; i; j] = item m [i; j; n].
Proof.
  induction k as [| k IH]; intros Hk Hj; [lia |].
  unfold cells in *. rewrite fold_seq_S. unfold forward_cell at 1.
  set_other.
  destruct (Nat.eq_dec j k) as [-> | Hne].
  - now set_same.
  - set_other. apply IH; lia.
Qed.

Lemma cells_integral k r :
  k <= ni ->
  item (cells k r) [n; i; ni] = row_integral m f n i k (item r [n; i; ni]).
Proof.
  induction k as [| k IH]; intros Hk; [reflexivity |].
  unfold cells, row_integral in *. rewrite !fold_seq_S.
  unfold forward_cell at 1. set_same. set_other.
  rewrite IH by lia. reflexivity.
Qed.

Lemma row_frame r idx :
  (forall j, idx <> [n; i; j]) -> item (forward_row ni m d f g n r i) idx = item r idx.
Proof.
  intros H. unfold forward_row. destruct (item d [i; n]).
  - now apply cells_frame.
  - now rewrite item_set_other by apply H.
Qed.

Lemma row_in_domain r :
  item d [i; n] = true ->
  (forall j, j < ni -> item (forward_row ni m d f g n r i) [n; i; j] = item m [i; j; n]) /\
  item (forward_row ni m d f g n r i) [n; i; ni]
  = row_integral m f n i ni (item r [n; i; ni]).
Proof.
  intros Hd. unfold forward_row. rewrite Hd. split.
  - intros j Hj. now apply cells_entry.
  - now apply cells_integral.
Qed.

Lemma row_boundary r :
  item d [i; n] = false ->
  (forall j, j <> ni -> item (forward_row ni m d f g n r i) [n; i; j] = item r [n; i; j]) /\
  item (forward_row ni m d f g n r i) [n; i; ni] = item g [i; n].
Proof.
  intros Hd. unfold forward_row. rewrite Hd. split.
  - intros j Hj. now set_other.
  - now set_same.
Qed.

End Row.

Section Step.

Variable n : nat.

Let rows (k : nat) (r : ndarray flt) : ndarray flt :=
  fold_left (forward_row ni m d f g n) (seq 0 k) r.

Lemma rows_frame k r idx :
  (forall i j, i < k -> idx <> [n; i; j]) -> item (rows k r) idx = item r idx.
Proof.
  induction k as [| k IH]; intros H; [reflexivity |].
  unfold rows in *. rewrite fold_seq_S.
  rewrite row_frame by (intros j; apply H; lia).
  apply IH. intros i j Hi; apply H; lia.
Qed.

Lemma rows_row k r i idx :
  i < k -> (exists j, idx = [n; i; j]) ->
  item (rows k r) idx = item (forward_row ni m d f g n r i) idx.
Proof.
  induction k as [| k IH]; intros Hi [j ->]; [lia |].
  unfold rows in *. rewrite fold_seq_S.
  destruct (Nat.eq_dec i k) as [-> | Hne].
  - fold (rows k r).
    assert (Hrow : forall j', item (rows k r) [n; k; j'] = item r [n; k; j']).
    { intros j'. apply rows_frame. intros i' j'' Hlt E. inversion E; lia. }
    unfold forward_row. destruct (item d [k; n]).
    + destruct (Nat.eq_dec j ni) as [-> | Hj].
      * rewrite !cells_integral by lia. now rewrite Hrow.
      * destruct (lt_dec j ni) as [Hlt | Hge].
        -- now rewrite !cells_entry by lia.
        -- (* a column beyond the matrix: no cell writes it *)
           assert (Hun : forall k' r', k' <= ni ->
                     item (fold_left (forward_cell ni m f n k) (seq 0 k') r') [n; k; j]
                     = item r' [n; k; j]).
           { induction k' as [| k' IHk]; intros r' Hk'; [reflexivity |].
             rewrite fold_seq_S. unfold forward_cell at 1.
             do 2 set_other. apply IHk; lia. }
           rewrite !Hun by lia. apply Hrow.
    + destruct (Nat.eq_dec j ni) as [-> | Hj].
      * now rewrite !item_set_same.
      * do 2 set_other. apply Hrow.
  - rewrite row_frame by (intros j' E; inversion E; lia).
    apply IH; [lia | eauto].
Qed.

Lemma step_frame r idx :
  (forall i j, idx <> [n; i; j]) -> item (forward_step ni m d f g r n) idx = item r idx.
Proof.
  intros H. unfold forward_step.
  rewrite item_set_other by apply H.
  apply rows_frame. intros i j _. apply H.
Qed.

Lemma step_row r i j :
  i < ni ->
  item (forward_step ni m d f g r n) [n; i; j]
  = item (forward_row ni m d f g n r i) [n; i; j].
Proof.
  intros Hi. unfold forward_step. set_other.
  apply rows_row; eauto.
Qed.

Lemma step_last_row r j :
  item (forward_step ni m d f g r n) [n; ni; j]
  = if j =? ni then fone else item r [n; ni; j].
Proof.
  unfold forward_step. destruct (Nat.eqb_spec j ni) as [-> | Hj].
  - now set_same.
  - set_other. apply rows_frame. intros i j' Hi E. inversion E; lia.
Qed.

End Step.

Let loop (k : nat) (r : ndarray flt) : ndarray flt :=
  fold_left (forward_step ni m d f g) (seq 0 k) r.

Lemma loop_frame k r idx :
  (forall n i j, n < k -> idx <> [n; i; j]) -> item (loop k r) idx = item r idx.
Proof.
  induction k as [| k IH]; intros H; [reflexivity |].
  unfold loop in *. rewrite fold_seq_S.
  rewrite step_frame by (intros i j; apply H; lia).
  apply IH. intros n i j Hn; apply H; lia.
Qed.

Lemma loop_slab k r n i j :
  n < k ->
  item (loop k r) [n; i; j] = item (forward_step ni m d f g (loop n r) n) [n; i; j].
Proof.
  induction k as [| k IH]; intros Hn; [lia |].
  unfold loop in *. rewrite fold_seq_S.
  destruct (Nat.eq_dec n k) as [-> | Hne]; [reflexivity |].
  rewrite step_frame by (intros i' j' E; inversion E; lia).
  apply IH; lia.
Qed.

Lemma loop_before k r n i j :
  item (loop n r) [n + k; i; j] = item r [n + k; i; j].
Proof. apply loop_frame. intros n' i' j' Hn E. inversion E; lia. Qed.

End Forward.

Section Backward.

Variables (ni : nat) (m : ndarray flt) (d : ndarray bool) (f g : ndarray flt).

Section Column.

Variables (n j : nat).

Let cells (k : nat) (r : ndarray flt) : ndarray flt :=
  fold_left (backward_cell ni m f n j) (seq 0 k) r.

Lemma bcells_frame k r idx :
  (forall i, idx <> [n; i; j]) -> item (cells k r) idx = item r idx.
Proof.
  intros H. induction k as [| k IH]; [reflexivity |].
  unfold cells in *. rewrite fold_seq_S. unfold backward_cell at 1.
  rewrite !item_set_other by apply H. exact IH.
Qed.

Lemma bcells_entry k r i :
  k <= ni -> i < k -> item (cells k r) [n; i; j] = item m [i; j; n].
Proof.
  induction k as [| k IH]; intros Hk Hi; [lia |].
  unfold cells in *. rewrite fold_seq_S. unfold backward_cell at 1.
  set_other.
  destruct (Nat.eq_dec i k) as [-> | Hne].
  - now set_same.
  - set_other. apply IH; lia.
Qed.

Lemma bcells_integral k r :
  k <= ni ->
  item (cells k r) [n; ni; j] = column_integral m f n j k (item r [n; ni; j]).
Proof.
  induction k as [| k IH]; intros Hk; [reflexivity |].
  unfold cells, column_integral in *. rewrite !fold_seq_S.
  unfold backward_cell at 1. set_same. set_other.
  rewrite IH by lia. reflexivity.
Qed.

Lemma bcells_beyond k r i :
  k <= ni -> ni < i -> item (cells k r) [n; i; j] = item r [n; i; j].
Proof.
  induction k as [| k IH]; intros Hk Hi; [reflexivity |].
  unfold cells in *. rewrite fold_seq_S. unfold backward_cell at 1.
  do 2 set_other. apply IH; lia.
Qed.

Lemma column_frame r idx :
  (forall i, idx <> [n; i; j]) ->
  item (backward_column ni m d f g n r j) idx = item r idx.
Proof.
  intros H. unfold backward_column. destruct (item d [j; n + 1]).
  - now apply bcells_frame.
  - now rewrite item_set_other by apply H.
Qed.

Lemma column_in_domain r :
  item d [j; n + 1] = true ->
  (forall i, i < ni ->
     item (backward_column ni m d f g n r j) [n; i; j] = item m [i; j; n]) /\
  item (backward_column ni m d f g n r j) [n; ni; j]
  = column_integral m f n j ni (item r [n; ni; j]).
Proof.
  intros Hd. unfold backward_column. rewrite Hd. split.
  - intros i Hi. now apply bcells_entry.
  - now apply bcells_integral.
Qed.

Lemma column_boundary r :
  item d [j; n + 1] = false ->
  (forall i, i <> ni ->
     item (backward_column ni m d f g n r j) [n; i; j] = item r [n; i; j]) /\
  item (backward_column ni m d f g n r j) [n; ni; j] = item g [j; n + 1].
Proof.
  intros Hd. unfold backward_column. rewrite Hd. split.
  - intros i Hi. now set_other.
  - now set_same.
Qed.

End Column.

Section BStep.

Variable n : nat.

Let cols (k : nat) (r : ndarray flt) : ndarray flt :=
  fold_left (backward_column ni m d f g n) (seq 0 k) r.

Lemma cols_frame k r idx :
  (forall i j, j < k -> idx <> [n; i; j]) -> item (cols k r) idx = item r idx.
Proof.
  induction k as [| k IH]; intros H; [reflexivity |].
  unfold cols in *. rewrite fold_seq_S.
  rewrite column_frame by (intros i; apply H; lia).
  apply IH. intros i j Hj; apply H; lia.
Qed.

Lemma cols_column k r j idx :
  j < k -> (exists i, idx = [n; i; j]) ->
  item (cols k r) idx = item (backward_column ni m d f g n r j) idx.
Proof.
  induction k as [| k IH]; intros Hj [i ->]; [lia |].
  unfold cols in *. rewrite fold_seq_S.
  destruct (Nat.eq_dec j k) as [-> | Hne].
  - fold (cols k r).
    assert (Hcol : forall i', item (cols k r) [n; i'; k] = item r [n; i'; k]).
    { intros i'. apply cols_frame. intros i'' j' Hlt E. inversion E; lia. }
    unfold backward_column. destruct (item d [k; n + 1]).
    + destruct (Nat.eq_dec i ni) as [-> | Hi].
      * rewrite !bcells_integral by lia. now rewrite Hcol.
      * destruct (lt_dec i ni) as [Hlt | Hge].
        -- now rewrite !bcells_entry by lia.
        -- rewrite !bcells_beyond by lia. apply Hcol.
    + destruct (Nat.eq_dec i ni) as [-> | Hi].
      * now rewrite !item_set_same.
      * do 2 set_other. apply Hcol.
  - rewrite column_frame by (intros i' E; inversion E; lia).
    apply IH; [lia | eauto].
Qed.

Lemma bstep_frame r idx :
  (forall i j, idx <> [n; i; j]) ->
  item (backward_step ni m d f g r n) idx = item r idx.
Proof.
  intros H. unfold backward_step.
  rewrite item_set_other by apply H.
  apply cols_frame. intros i j _. apply H.
Qed.

Lemma bstep_column r i j :
  j < ni ->
  item (backward_step ni m d f g r n) [n; i; j]
  = item (backward_column ni m d f g n r j) [n; i; j].
Proof.
  intros Hj. unfold backward_step. set_other.
  apply cols_column; eauto.
Qed.

Lemma bstep_last_column r i :
  item (backward_step ni m d f g r n) [n; i; ni]
  = if i =? ni then fone else item r [n; i; ni].
Proof.
  unfold backward_step. destruct (Nat.eqb_spec i ni) as [-> | Hi].
  - now set_same.
  - set_other. apply cols_frame. intros i' j Hj E. inversion E; lia.
Qed.

End BStep.

Let loop (k : nat) (r : ndarray flt) : ndarray flt :=
  fold_left (backward_step ni m d f g) (seq 0 k) r.

Lemma bloop_frame k r idx :
  (forall n i j, n < k -> idx <> [n; i; j]) -> item (loop k r) idx = item r idx.
Proof.
  induction k as [| k IH]; intros H; [reflexivity |].
  unfold loop in *. rewrite fold_seq_S.
  rewrite bstep_frame by (intros i j; apply H; lia).
  apply IH. intros n i j Hn; apply H; lia.
Qed.

Lemma bloop_slab k r n i j :
  n < k ->
  item (loop k r) [n; i; j]
  = item (backward_step ni m d f g (loop n r) n) [n; i; j].
Proof.
  induction k as [| k IH]; intros Hn; [lia |].
  unfold loop in *. rewrite fold_seq_S.
  destruct (Nat.eq_dec n k) as [-> | Hne]; [reflexivity |].
  rewrite bstep_frame by (intros i' j' E; inversion E; lia).
  apply IH; lia.
Qed.

Lemma bloop_before k r n i j :
  item (loop n r) [n + k; i; j] = item r [n + k; i; j].
Proof. apply bloop_frame. intros n' i' j' Hn E. inversion E; lia. Qed.

End Backward.

(** *** The complete loop nests *)

Lemma forward_loop_shape ni nt m d f g :
  shape (_forward_transitions_loop ni nt m d f g) = [nt; ni + 1; ni + 1].
Proof.
  unfold _forward_transitions_loop. rewrite fold_seq_shape; [reflexivity |].
  intros r n. unfold forward_step. simpl. apply fold_seq_shape.
  intros r' i. unfold forward_row. destruct (item d [i; n]); [| reflexivity].
  apply fold_seq_shape. reflexivity.
Qed.

Lemma backward_loop_shape ni nt m d f g :
  shape (_backward_transitions_loop ni nt m d f g) = [nt; ni + 1; ni + 1].
Proof.
  unfold _backward_transitions_loop. rewrite fold_seq_shape; [reflexivity |].
  intros r n. unfold backward_step. simpl. apply fold_seq_shape.
  intros r' j. unfold backward_column. destruct (item d [j; n + 1]); [| reflexivity].
  apply fold_seq_shape. reflexivity.
Qed.

Lemma forward_loop_zero_before ni nt m d f g n i j :
  item (fold_left (forward_step ni m d f g) (seq 0 n)
          (np_zeros [nt; ni + 1; ni + 1])) [n; i; j] = fzero.
Proof.
  rewrite loop_frame; [reflexivity |].
  intros n' i' j' Hn E. inversion E; lia.
Qed.

Lemma backward_loop_zero_before ni nt m d f g n i j :
  item (fold_left (backward_step ni m d f g) (seq 0 n)
          (np_zeros [nt; ni + 1; ni + 1])) [n; i; j] = fzero.
Proof.
  rewrite bloop_frame; [reflexivity |].
  intros n' i' j' Hn E. inversion E; lia.
Qed.

Lemma forward_loop_in_domain ni nt m d f g n i :
  n < nt -> i < ni -> item d [i; n] = true ->
  (forall j, j < ni ->
     item (_forward_transitions_loop ni nt m d f g) [n; i; j] = item m [i; j; n]) /\
  item (_forward_transitions_loop ni nt m d f g) [n; i; ni]
  = row_integral m f n i ni fzero.
Proof.
  intros Hn Hi Hd. unfold _forward_transitions_loop.
  split; [intros j Hj |]; rewrite loop_slab by exact Hn;
    rewrite step_row by exact Hi.
  - now apply row_in_domain.
  - rewrite (proj2 (row_in_domain ni m d f g n i _ Hd)).
    now rewrite forward_loop_zero_before.
Qed.

Lemma forward_loop_boundary ni nt m d f g n i :
  n < nt -> i < ni -> item d [i; n] = false ->
  (forall j, j < ni ->
     item (_forward_transitions_loop ni nt m d f g) [n; i; j] = fzero) /\
  item (_forward_transitions_loop ni nt m d f g) [n; i; ni] = item g [i; n].
Proof.
  intros Hn Hi Hd. unfold _forward_transitions_loop.
  split; [intros j Hj |]; rewrite loop_slab by exact Hn;
    rewrite step_row by exact Hi.
  - rewrite (proj1 (row_boundary ni m d f g n i _ Hd)) by lia.
    apply forward_loop_zero_before.
  - now apply row_boundary.
Qed.

Lemma forward_loop_last_row ni nt m d f g n j :
  n < nt ->
  item (_forward_transitions_loop ni nt m d f g) [n; ni; j]
  = if j =? ni then fone else fzero.
Proof.
  intros Hn. unfold _forward_transitions_loop.
  rewrite loop_slab by exact Hn. rewrite step_last_row.
  now rewrite forward_loop_zero_before.
Qed.

Lemma backward_loop_in_domain ni nt m d f g n j :
  n < nt -> j < ni -> item d [j; n + 1] = true ->
  (forall i, i < ni ->
     item (_backward_transitions_loop ni nt m d f g) [n; i; j] = item m [i; j; n]) /\
  item (_backward_transitions_loop ni nt m d f g) [n; ni; j]
  = column_integral m f n j ni fzero.
Proof.
  intros Hn Hj Hd. unfold _backward_transitions_loop.
  split; [intros i Hi |]; rewrite bloop_slab by exact Hn;
    rewrite bstep_column by exact Hj.
  - now apply column_in_domain.
  - rewrite (proj2 (column_in_domain ni m d f g n j _ Hd)).
    now rewrite backward_loop_zero_before.
Qed.

Lemma backward_loop_boundary ni nt m d f g n j :
  n < nt -> j < ni -> item d [j; n + 1] = false ->
  (forall i, i < ni ->
     item (_backward_transitions_loop ni nt m d f g) [n; i; j] = fzero) /\
  item (_backward_transitions_loop ni nt m d f g) [n; ni; j] = item g [j; n + 1].
Proof.
  intros Hn Hj Hd. unfold _backward_transitions_loop.
  split; [intros i Hi |]; rewrite bloop_slab by exact Hn;
    rewrite bstep_column by exact Hj.
  - rewrite (proj1 (column_boundary ni m d f g n j _ Hd)) by lia.
    apply backward_loop_zero_before.
  - now apply column_boundary.
Qed.

Lemma backward_loop_last_column ni nt m d f g n i :
  n < nt ->
  item (_backward_transitions_loop ni nt m d f g) [n; i; ni]
  = if i =? ni then fone else fzero.
Proof.
  intros Hn. unfold _backward_transitions_loop.
  rewrite bloop_slab by exact Hn. rewrite bstep_last_column.
  now rewrite backward_loop_zero_before.
Qed.

(** *** Composition by [moving_matmul] *)

Lemma moving_matmul_ok r N dim lag :
  shape r = [N; dim; dim] -> (1 <= lag <= Z.of_nat N)%Z ->
  exists c, moving_matmul r lag = Ok c /\
    shape c = [N - Z.to_nat lag + 1; dim; dim] /\
    forall k a b,
      item c [k; a; b] = window_product dim r k (Z.to_nat lag) a b.
Proof.
  intros Hs Hl. unfold moving_matmul. rewrite Hs, Nat.eqb_refl.
  destruct (Z.leb_spec 1 lag) as [_ | ?]; [| lia].
  destruct (Z.leb_spec lag (Z.of_nat N)) as [_ | ?]; [| lia].
  simpl. eexists. split; [reflexivity |]. split; reflexivity.
Qed.

Lemma window_product_one dim r n :
  window_product dim r n 1 = matrix_at r n.
Proof. reflexivity. Qed.

Lemma window_product_succ dim r n w :
  window_product dim r n (S (S w))
  = matmul dim (window_product dim r n (S w)) (matrix_at r (n + S w)).
Proof.
  unfold window_product. simpl Nat.sub. rewrite Nat.sub_0_r.
  rewrite seq_S, fold_left_app. reflexivity.
Qed.

(** *** Unit last row and column under products *)

Lemma sum_of_zeros (term : nat -> flt) (n : nat) :
  (forall k, k < n -> term k = fzero) ->
  fold_left (fun acc k => fadd acc (term k)) (seq 0 n) fzero = fzero.
Proof.
  induction n as [| n IH]; intros H; [reflexivity |].
  rewrite fold_seq_S, IH by (intros k Hk; apply H; lia).
  rewrite H by lia. apply fadd_0_r.
Qed.

Lemma sum_finite (term : nat -> flt) (n : nat) (a : flt) :
  finite a -> (forall k, k < n -> finite (term k)) ->
  finite (fold_left (fun acc k => fadd acc (term k)) (seq 0 n) a).
Proof.
  intros Ha. induction n as [| n IH]; intros H; [exact Ha |].
  rewrite fold_seq_S. apply finite_fadd; [apply IH; intros; apply H |
                                          apply H]; lia.
Qed.

Lemma finite_unit (b : bool) : finite (if b then fone else fzero).
Proof. destruct b; exact I. Qed.

Lemma matmul_last_row ni A B :
  unit_last_row ni A -> unit_last_row ni B -> finite_matrix ni B ->
  unit_last_row ni (matmul (ni + 1) A B).
Proof.
  intros HA HB FB j Hj. unfold matmul.
  rewrite Nat.add_1_r, fold_seq_S.
  rewrite (sum_of_zeros (fun k => fmul (A ni k) (B k j))).
  - rewrite (HA ni), Nat.eqb_refl by lia.
    rewrite fmul_1_l by (apply FB; lia).
    rewrite fadd_0_l. now apply HB.
  - intros k Hk. rewrite (HA k) by lia.
    destruct (Nat.eqb_spec k ni); [lia |].
    apply fmul_0_l, FB; lia.
Qed.

Lemma matmul_last_column ni A B :
  unit_last_column ni A -> unit_last_column ni B -> finite_matrix ni A ->
  unit_last_column ni (matmul (ni + 1) A B).
Proof.
  intros HA HB FA i Hi. unfold matmul.
  rewrite Nat.add_1_r, fold_seq_S.
  rewrite (sum_of_zeros (fun k => fmul (A i k) (B k ni))).
  - rewrite (HB ni), Nat.eqb_refl by lia.
    rewrite fmul_1_r by (apply FA; lia).
    rewrite fadd_0_l. now apply HA.
  - intros k Hk. rewrite (HB k) by lia.
    destruct (Nat.eqb_spec k ni); [lia |].
    apply fmul_0_r, FA; lia.
Qed.

Lemma matmul_finite ni A B :
  finite_matrix ni A -> finite_matrix ni B ->
  finite_matrix ni (matmul (ni + 1) A B).
Proof.
  intros FA FB i j Hi Hj. unfold matmul.
  apply (sum_finite (fun k => fmul (A i k) (B k j))); [exact I |].
  intros k Hk. apply finite_fmul; [apply FA | apply FB]; lia.
Qed.

(** A property of matrices that every factor has and that products
    preserve holds of every window product. *)
Lemma window_product_invariant (P : (nat -> nat -> flt) -> Prop) dim r n w :
  (forall k, k < S w -> P (matrix_at r (n + k))) ->
  (forall A k, k < S w -> P A -> P (matmul dim A (matrix_at r (n + k)))) ->
  P (window_product dim r n (S w)).
Proof.
  induction w as [| w IH]; intros Hf Hm.
  - rewrite window_product_one. rewrite <- (Nat.add_0_r n). apply Hf. lia.
  - rewrite window_product_succ. apply Hm; [lia |].
    apply IH; intros; [apply Hf | apply Hm]; auto; lia.
Qed.

Lemma row_integral_finite m f n i k :
  (forall j, j < k -> finite (item m [i; j; n]) /\ finite (item f [i; j; n])) ->
  finite (row_integral m f n i k fzero).
Proof.
  intros H. unfold row_integral.
  apply (sum_finite (fun j => fmul (item m [i; j; n]) (item f [i; j; n])));
    [exact I |].
  intros j Hj. apply finite_fmul; now apply H.
Qed.

Lemma column_integral_finite m f n j k :
  (forall i, i < k -> finite (item m [i; j; n]) /\ finite (item f [i; j; n])) ->
  finite (column_integral m f n j k fzero).
Proof.
  intros H. unfold column_integral.
  apply (sum_finite (fun i => fmul (item m [i; j; n]) (item f [i; j; n])));
    [exact I |].
  intros i Hi. apply finite_fmul; now apply H.
Qed.

Lemma forward_loop_finite ni nt m d f g n :
  finite_inputs ni nt m f g -> n < nt ->
  finite_matrix ni (matrix_at (_forward_transitions_loop ni nt m d f g) n).
Proof.
  intros [Hmf Hg] Hn i j Hi Hj. unfold matrix_at.
  destruct (Nat.eq_dec i ni) as [-> | Hi'].
  - rewrite forward_loop_last_row by exact Hn. apply finite_unit.
  - assert (Hlt : i < ni) by lia.
    destruct (item d [i; n]) eqn:Hd.
    + destruct (forward_loop_in_domain ni nt m d f g n i Hn Hlt Hd) as [He Hc].
      destruct (Nat.eq_dec j ni) as [-> | Hj'].
      * rewrite Hc. apply row_integral_finite. intros; now apply Hmf.
      * rewrite He by lia. apply Hmf; lia.
    + destruct (forward_loop_boundary ni nt m d f g n i Hn Hlt Hd) as [He Hc].
      destruct (Nat.eq_dec j ni) as [-> | Hj'].
      * rewrite Hc. apply Hg; lia.
      * rewrite He by lia. exact I.
Qed.

Lemma backward_loop_finite ni nt m d f g n :
  finite_inputs ni nt m f g -> n < nt ->
  finite_matrix ni (matrix_at (_backward_transitions_loop ni nt m d f g) n).
Proof.
  intros [Hmf Hg] Hn i j Hi Hj. unfold matrix_at.
  destruct (Nat.eq_dec j ni) as [-> | Hj'].
  - rewrite backward_loop_last_column by exact Hn. apply finite_unit.
  - assert (Hlt : j < ni) by lia.
    destruct (item d [j; n + 1]) eqn:Hd.
    + destruct (backward_loop_in_domain ni nt m d f g n j Hn Hlt Hd) as [He Hc].
      destruct (Nat.eq_dec i ni) as [-> | Hi'].
      * rewrite Hc. apply column_integral_finite. intros; now apply Hmf.
      * rewrite He by lia. apply Hmf; lia.
    + destruct (backward_loop_boundary ni nt m d f g n j Hn Hlt Hd) as [He Hc].
      destruct (Nat.eq_dec i ni) as [-> | Hi'].
      * rewrite Hc. apply Hg; lia.
      * rewrite He by lia. exact I.
Qed.

Lemma forward_products_last_row ni nt m d f g n w :
  finite_inputs ni nt m f g -> n + S w <= nt ->
  unit_last_row ni
    (window_product (ni + 1) (_forward_transitions_loop ni nt m d f g) n (S w)).
Proof.
  intros Hfin Hn.
  apply (window_product_invariant (unit_last_row ni)).
  - intros k Hk j Hj. unfold matrix_at.
    apply forward_loop_last_row; lia.
  - intros A k Hk HA. apply matmul_last_row; [exact HA | |].
    + intros j Hj. unfold matrix_at. apply forward_loop_last_row; lia.
    + apply forward_loop_finite; [exact Hfin | lia].
Qed.

Lemma backward_products_last_column ni nt m d f g n w :
  finite_inputs ni nt m f g -> n + S w <= nt ->
  unit_last_column ni
    (window_product (ni + 1) (_backward_transitions_loop ni nt m d f g) n (S w))
  /\ finite_matrix ni
    (window_product (ni + 1) (_backward_transitions_loop ni nt m d f g) n (S w)).
Proof.
  intros Hfin Hn.
  apply (window_product_invariant
           (fun A => unit_last_column ni A /\ finite_matrix ni A)).
  - intros k Hk. split.
    + intros i Hi. unfold matrix_at. apply backward_loop_last_column; lia.
    + apply backward_loop_finite; [exact Hfin | lia].
  - intros A k Hk [HA FA]. split.
    + apply matmul_last_column; [exact HA | | exact FA].
      intros i Hi. unfold matrix_at. apply backward_loop_last_column; lia.
    + apply matmul_finite; [exact FA |].
      apply backward_loop_finite; [exact Hfin | lia].
Qed.

(** *** The claims on the per-transition matrices *)

(** C1.  For every transition [n] the forward helper builds an
    [(ni+1) x (ni+1)] matrix [r[n]]: where [in_domain[i,n]] holds, row
    [i] carries [m[i,:,n]] in the columns [0..ni-1] and the sum over [j]
    of [m[i,j,n] * function[i,j,n]] in the boundary column [ni]; where
    it does not hold, row [i] is zero except for [r[n,i,ni] =
    guess[i,n]]; and [r[n,ni,ni] = 1].  For a lag between 1 and [nt] the
    helper returns the [nt - lag + 1] products of [lag] consecutive
    matrices, as [moving_matmul] composes them. *)
Theorem forward_transitions_helper_spec
  (ni nt : nat) (m : ndarray flt) (d : ndarray bool) (f g : ndarray flt) :
  let r := _forward_transitions_loop ni nt m d f g in
  shape r = [nt; ni + 1; ni + 1] /\
  (forall n, n < nt ->
     (forall i, i < ni ->
        if item d [i; n]
        then (forall j, j < ni -> item r [n; i; j] = item m [i; j; n]) /\
             item r [n; i; ni] = row_integral m f n i ni fzero
        else (forall j, j < ni -> item r [n; i; j] = fzero) /\
             item r [n; i; ni] = item g [i; n]) /\
     item r [n; ni; ni] = fone) /\
  (forall lag, (1 <= lag <= Z.of_nat nt)%Z ->
     exists c,
       _forward_transitions_helper ni nt m d f g lag = Ok c /\
       shape c = [nt - Z.to_nat lag + 1; ni + 1; ni + 1] /\
       forall k a b,
         item c [k; a; b] = window_product (ni + 1) r k (Z.to_nat lag) a b).
Proof.
  intros r. split; [apply forward_loop_shape |]. split.
  - intros n Hn. split.
    + intros i Hi. destruct (item d [i; n]) eqn:Hd.
      * now apply forward_loop_in_domain.
      * now apply forward_loop_boundary.
    + unfold r. rewrite forward_loop_last_row by exact Hn.
      now rewrite Nat.eqb_refl.
  - intros lag Hlag. unfold _forward_transitions_helper.
    apply moving_matmul_ok; [apply forward_loop_shape | exact Hlag].
Qed.

(** C2.  The backward helper builds the transposed mirror: for every
    transition [n] it tests [in_domain[j,n+1]]; where it holds, column
    [j] carries [m[:,j,n]] in the rows [0..ni-1] and the sum over [i] of
    [m[i,j,n] * function[i,j,n]] in row [ni]; where it does not hold,
    column [j] is zero except for [r[n,ni,j] = guess[j,n+1]]; and
    [r[n,ni,ni] = 1]. *)
Theorem backward_transitions_helper_spec
  (ni nt : nat) (m : ndarray flt) (d : ndarray bool) (f g : ndarray flt) :
  let r := _backward_transitions_loop ni nt m d f g in
  shape r = [nt; ni + 1; ni + 1] /\
  (forall n, n < nt ->
     (forall j, j < ni ->
        if item d [j; n + 1]
        then (forall i, i < ni -> item r [n; i; j] = item m [i; j; n]) /\
             item r [n; ni; j] = column_integral m f n j ni fzero
        else (forall i, i < ni -> item r [n; i; j] = fzero) /\
             item r [n; ni; j] = item g [j; n + 1]) /\
     item r [n; ni; ni] = fone) /\
  (forall lag, (1 <= lag <= Z.of_nat nt)%Z ->
     exists c,
       _backward_transitions_helper ni nt m d f g lag = Ok c /\
       shape c = [nt - Z.to_nat lag + 1; ni + 1; ni + 1] /\
       forall k a b,
         item c [k; a; b] = window_product (ni + 1) r k (Z.to_nat lag) a b).
Proof.
  intros r. split; [apply backward_loop_shape |]. split.
  - intros n Hn. split.
    + intros j Hj. destruct (item d [j; n + 1]) eqn:Hd.
      * now apply backward_loop_in_domain.
      * now apply backward_loop_boundary.
    + unfold r. rewrite backward_loop_last_column by exact Hn.
      now rewrite Nat.eqb_refl.
  - intros lag Hlag. unfold _backward_transitions_helper.
    apply moving_matmul_ok; [apply backward_loop_shape | exact Hlag].
Qed.


(** *** The preconditions of the extended estimators *)

Lemma feqb_zero (v : flt) : feqb v fzero = true <-> v = fzero.
Proof.
  destruct v as [q | s | ]; simpl; try (split; discriminate).
  destruct (Qc_eq_dec q 0%Qc) as [-> | Hne]; split; intros H;
    try reflexivity; try discriminate.
  inversion H. contradiction.
Qed.

Lemma tail_slice {A : Type} (l : list A) (lag : Z) :
  (0 < lag)%Z ->
  py_slice (Some (- lag)%Z) None l = skipn (length l - Z.to_nat lag) l.
Proof.
  intros Hlag. unfold py_slice, slice_bound.
  destruct (Z.ltb_spec (- lag) 0) as [_ | ?]; [| lia].
  replace (Z.to_nat (Z.max 0 (- lag + Z.of_nat (length l))))
    with (length l - Z.to_nat lag) by lia.
  apply firstn_all2. rewrite length_skipn. lia.
Qed.

Lemma tail_check (w : vec) (lag : Z) :
  (0 < lag)%Z ->
  forallb (fun v => feqb v fzero) (py_slice (Some (- lag)%Z) None w) = true
  <-> weight_tail_zero w lag.
Proof.
  intros Hlag. rewrite tail_slice by exact Hlag. unfold weight_tail_zero.
  rewrite forallb_forall, Forall_forall.
  split; intros H v Hv; apply feqb_zero, H, Hv.
Qed.

Lemma foldM_app {A S : Type} (body : S -> A -> exc S) (pre post : list A) s :
  foldM body (pre ++ post) s = (s' <- foldM body pre s ;; foldM body post s').
Proof.
  revert s; induction pre as [| a pre IH]; intros s; simpl; [reflexivity |].
  destruct (body s a) as [e | s']; simpl; [reflexivity | apply IH].
Qed.

Lemma tail_of_check (w : vec) (lag : Z) :
  forallb (fun v => feqb v fzero) (py_slice (Some (- lag)%Z) None w) = true ->
  weight_tail_zero w lag.
Proof.
  destruct (Z.lt_ge_cases 0 lag) as [Hpos | Hneg].
  - now apply tail_check.
  - intros _. unfold weight_tail_zero.
    replace (Z.to_nat lag) with 0 by lia.
    rewrite Nat.sub_0_r, skipn_all. constructor.
Qed.

Lemma validate_cases (t : trajectory) (lag : Z) (ni k nt : nat) :
  shape (m t) = [ni; k; nt] ->
  (forallb (fun v => feqb v fzero) (py_slice (Some (- lag)%Z) None (w t)) = true
   /\ shapes_agree t ni nt /\
   validate t lag
   = Ok (ni, nt, if ndim (f t) =? 0 then np_full [ni; ni; nt] (item (f t) [])
                 else f t))
  \/ ((forallb (fun v => feqb v fzero) (py_slice (Some (- lag)%Z) None (w t))
       = false \/ ~ shapes_agree t ni nt) /\
      validate t lag = Raise AssertionError).
Proof.
  intros Hm. unfold validate. rewrite Hm.
  destruct (forallb _ _) eqn:Hw; cbn [bind assert]; [| right; auto].
  destruct (index_eqb [ni; k; nt] [ni; ni; nt]) eqn:E1; cbn [bind assert].
  2:{ right. split; [| reflexivity]. right. intros [Hs _].
      rewrite Hs in Hm. inversion Hm; subst.
      now rewrite index_eqb_refl in E1. }
  apply index_eqb_eq in E1. inversion E1; subst k.
  destruct (index_eqb (shape (d t)) [ni; nt + 1]) eqn:E2; cbn [bind assert].
  2:{ right. split; [| reflexivity]. right. intros (_ & Hs & _).
      rewrite Hs, index_eqb_refl in E2. discriminate. }
  apply index_eqb_eq in E2.
  assert (Hf : index_eqb
                 (shape (if ndim (f t) =? 0
                         then np_full [ni; ni; nt] (item (f t) []) else f t))
                 [ni; ni; nt] = true
               <-> (shape (f t) = [] \/ shape (f t) = [ni; ni; nt])).
  { unfold ndim. destruct (shape (f t)) as [| a sh] eqn:Esh; simpl.
    - rewrite !Nat.eqb_refl. simpl. tauto.
    - rewrite Esh. rewrite index_eqb_eq. split; [auto |].
      intros [H | H]; [discriminate | exact H]. }
  destruct (index_eqb (shape (if ndim (f t) =? 0 then _ else _)) _) eqn:E3;
    cbn [bind assert].
  2:{ right. split; [| reflexivity]. right. intros (_ & _ & Hs & _).
      apply Hf in Hs. discriminate. }
  destruct (index_eqb (shape (g t)) [ni; nt + 1]) eqn:E4; cbn [bind assert].
  2:{ right. split; [| reflexivity]. right. intros (_ & _ & _ & Hs).
      rewrite Hs, index_eqb_refl in E4. discriminate. }
  apply index_eqb_eq in E4.
  left. split; [reflexivity |]. split; [| reflexivity].
  repeat split; try assumption. now apply Hf.
Qed.

Section EngineProperties.

Variables (sums : Type) (sums0 : sums) (result : Type).
Variable forward_accumulate : sums -> trajectory -> ndarray flt -> Z -> exc sums.
Variable backward_accumulate : sums -> trajectory -> ndarray flt -> Z -> exc sums.
Variable solve_transform :
  sums -> list (list array2) -> list (ndarray flt) -> exc result.

(** C9, as amended.  For a trajectory whose transitions array has rank
    3, of shape [(ni, _, nt)]: any violation of the preconditions (the
    last [lag] weights are zero; the arrays have the shapes
    [(ni,ni,nt)], [(ni,nt+1)], [(ni,ni,nt)] and [(ni,nt+1)], a scalar
    [function] being accepted) raises [AssertionError], and then the
    whole call of [forward_extended_feynman_kac] or
    [backward_extended_feynman_kac] raises it as soon as the loop
    reaches that trajectory, with no result; for a positive lag the
    checks pass when the preconditions hold, and a scalar [function] is
    broadcast to [(ni,ni,nt)]. *)
Theorem extended_preconditions
  (t : trajectory) (lag : Z) (ni k nt : nat) :
  shape (m t) = [ni; k; nt] ->
  ((0 < lag)%Z ->
   weight_tail_zero (w t) lag /\ shapes_agree t ni nt ->
   validate t lag
   = Ok (ni, nt, if ndim (f t) =? 0 then np_full [ni; ni; nt] (item (f t) [])
                 else f t)) /\
  (~ (weight_tail_zero (w t) lag /\ shapes_agree t ni nt) ->
   validate t lag = Raise AssertionError /\
   forall basis weights transitions in_domain function guess test_basis
          pre post ab,
     zip7 (match test_basis with None => basis | Some tb => tb end)
          basis weights transitions in_domain function guess
     = pre ++ t :: post ->
     (foldM (fun ab t => forward_trajectory forward_accumulate ab t lag)
            pre sums0 = Ok ab ->
      forward_extended_feynman_kac sums0 forward_accumulate solve_transform
        basis weights transitions in_domain function guess lag test_basis
      = Raise AssertionError) /\
     (foldM (fun ab t => backward_trajectory backward_accumulate ab t lag)
            pre sums0 = Ok ab ->
      backward_extended_feynman_kac sums0 backward_accumulate solve_transform
        basis weights transitions in_domain function guess lag test_basis
      = Raise AssertionError)).
Proof.
  intros Hm.
  destruct (validate_cases t lag ni k nt Hm)
    as [(Hw & Hs & Hv) | (Hn & Hv)].
  - split; [intros _ _; exact Hv |].
    intros H. exfalso. apply H. split; [now apply tail_of_check | exact Hs].
  - split.
    + intros Hlag [Hz Hs]. exfalso. destruct Hn as [Hw | Hns]; [| auto].
      apply (tail_check (w t) lag Hlag) in Hz. congruence.
    + intros _. split; [exact Hv |].
      intros basis weights transitions in_domain function guess test_basis
             pre post ab Hzip.
      split; intros Hpre.
      * unfold forward_extended_feynman_kac. rewrite Hzip, foldM_app, Hpre.
        simpl. unfold forward_trajectory at 1. rewrite Hv. reflexivity.
      * unfold backward_extended_feynman_kac. rewrite Hzip, foldM_app, Hpre.
        simpl. unfold backward_trajectory at 1. rewrite Hv. reflexivity.
Qed.

End EngineProperties.

(** *** Instances on the example data *)

Import Example.

(** The two per-transition matrices of the example, forward and
    backward, and the forward product of lag 2. *)
Example forward_loop_example :
  let r := _forward_transitions_loop 2 2 ex_m ex_d ex_f ex_g in
  tabulate 3 (matrix_at r 0)
  = [[of_int 1; of_int 3; of_int 46];
     [of_int 0; of_int 0; of_int 101];
     [of_int 0; of_int 0; of_int 1]] /\
  tabulate 3 (matrix_at r 1)
  = [[of_int 0; of_int 0; of_int 102];
     [of_int 6; of_int 8; of_int 226];
     [of_int 0; of_int 0; of_int 1]].
Proof. split; by_computation. Qed.

Example backward_loop_example :
  let r := _backward_transitions_loop 2 2 ex_m ex_d ex_f ex_g in
  tabulate 3 (matrix_at r 0)
  = [[of_int 0; of_int 3; of_int 0];
     [of_int 0; of_int 4; of_int 0];
     [of_int 102; of_int 88; of_int 1]] /\
  tabulate 3 (matrix_at r 1)
  = [[of_int 0; of_int 0; of_int 0];
     [of_int 0; of_int 0; of_int 0];
     [of_int 104; of_int 105; of_int 1]].
Proof. split; by_computation. Qed.

Example forward_helper_example :
  exists c,
    _forward_transitions_helper 2 2 ex_m ex_d ex_f ex_g 2 = Ok c /\
    shape c = [1; 3; 3] /\
    tabulate 3 (matrix_at c 0)
    = [[of_int 18; of_int 24; of_int 826];
       [of_int 0; of_int 0; of_int 101];
       [of_int 0; of_int 0; of_int 1]].
Proof.
  eexists. split; [reflexivity |]. split; [reflexivity | by_computation].
Qed.

(** The examples of the contract of [moving_matmul]: a window of 1 gives
    the matrices back, a window of 2 the products [A @ B], a window of 3
    the products [A @ B @ C]. *)
Example moving_matmul_examples (dim : nat) (r : ndarray flt) (n : nat) :
  window_product dim r n 1 = matrix_at r n /\
  window_product dim r n 2 = matmul dim (matrix_at r n) (matrix_at r (n + 1)) /\
  window_product dim r n 3
  = matmul dim (matmul dim (matrix_at r n) (matrix_at r (n + 1)))
      (matrix_at r (n + 2)).
Proof. repeat split. Qed.

Lemma forward_transitions_helper_spec_witness :
  item (_forward_transitions_loop 2 2 ex_m ex_d ex_f ex_g) [0; 0; 2]
  = row_integral ex_m ex_f 0 0 2 fzero /\
  item (_forward_transitions_loop 2 2 ex_m ex_d ex_f ex_g) [0; 2; 2] = fone /\
  exists c, _forward_transitions_helper 2 2 ex_m ex_d ex_f ex_g 2 = Ok c /\
            shape c = [1; 3; 3].
Proof.
  destruct (forward_transitions_helper_spec 2 2 ex_m ex_d ex_f ex_g)
    as (_ & Hrows & Hcomp).
  destruct (Hrows 0 ltac:(lia)) as [Hrow Hcorner].
  specialize (Hrow 0 ltac:(lia)).
  assert (Hd : item ex_d [0; 0] = true) by reflexivity.
  rewrite Hd in Hrow.
  destruct (Hcomp 2%Z ltac:(lia)) as (c & Hc & Hs & _).
  split; [exact (proj2 Hrow) |]. split; [exact Hcorner |].
  exists c. split; [exact Hc | exact Hs].
Defined.

Lemma backward_transitions_helper_spec_witness :
  item (_backward_transitions_loop 2 2 ex_m ex_d ex_f ex_g) [0; 2; 0]
  = item ex_g [0; 1] /\
  item (_backward_transitions_loop 2 2 ex_m ex_d ex_f ex_g) [0; 2; 1]
  = column_integral ex_m ex_f 0 1 2 fzero /\
  exists c, _backward_transitions_helper 2 2 ex_m ex_d ex_f ex_g 2 = Ok c /\
            shape c = [1; 3; 3].
Proof.
  destruct (backward_transitions_helper_spec 2 2 ex_m ex_d ex_f ex_g)
    as (_ & Hcols & Hcomp).
  destruct (Hcols 0 ltac:(lia)) as [Hcol _].
  pose proof (Hcol 0 ltac:(lia)) as H0.
  pose proof (Hcol 1 ltac:(lia)) as H1.
  assert (Hd0 : item ex_d [0; 0 + 1] = false) by reflexivity.
  assert (Hd1 : item ex_d [1; 0 + 1] = true) by reflexivity.
  rewrite Hd0 in H0. rewrite Hd1 in H1.
  destruct (Hcomp 2%Z ltac:(lia)) as (c & Hc & Hs & _).
  split; [exact (proj2 H0) |]. split; [exact (proj2 H1) |].
  exists c. split; [exact Hc | exact Hs].
Defined.

Lemma ex_finite_inputs : finite_inputs 2 2 ex_m ex_f ex_g.
Proof.
  split.
  - intros i j n _ _ _. split; exact I.
  - intros i n _ _. exact I.
Defined.


Lemma extended_preconditions_witness :
  validate ex_trajectory 2 = Ok (2, 2, np_full [2; 2; 2] fzero) /\
  validate ex_bad_trajectory 2 = Raise AssertionError /\
  forward_extended_feynman_kac tt (fun _ _ _ _ => Ok tt) (fun _ _ _ => Ok tt)
    [[]] [w ex_bad_trajectory] [ex_m] [ex_d] [scalar fzero] [ex_g] 2 None
  = Raise AssertionError.
Proof.
  pose proof (extended_preconditions unit tt unit
                (fun _ _ _ _ => Ok tt) (fun _ _ _ _ => Ok tt)
                (fun _ _ _ => Ok tt)) as H.
  assert (Hbad : ~ (weight_tail_zero (w ex_bad_trajectory) 2
                    /\ shapes_agree ex_bad_trajectory 2 2)).
  { intros [Hz _]. unfold weight_tail_zero in Hz. simpl in Hz.
    inversion Hz as [| v l Hv _]. discriminate Hv. }
  split.
  - apply (proj1 (H ex_trajectory 2%Z 2 2 2 eq_refl) ltac:(lia)).
    split.
    + unfold weight_tail_zero. simpl. repeat constructor.
    + repeat split. left. reflexivity.
  - destruct (proj2 (H ex_bad_trajectory 2%Z 2 2 2 eq_refl) Hbad)
      as [Hv Hcall].
    split; [exact Hv |].
    apply (proj1 (Hcall [[]] [w ex_bad_trajectory] [ex_m] [ex_d]
                    [scalar fzero] [ex_g] None [] [] tt eq_refl)).
    reflexivity.
Defined.

(** C9 as stated fails for a transitions array that is not of rank 3:
    the unpacking [ni, _, nt = m.shape] raises [ValueError] before any
    shape is asserted. *)
Lemma unpacking_is_not_an_assertion :
  validate ex_flat_trajectory 2 = Raise ValueError /\
  forward_extended_feynman_kac tt (fun _ _ _ _ => Ok tt) (fun _ _ _ => Ok tt)
    [[]] [w ex_flat_trajectory] [m ex_flat_trajectory] [ex_d]
    [scalar fzero] [ex_g] 2 None
  = Raise ValueError /\
  backward_extended_feynman_kac tt (fun _ _ _ _ => Ok tt) (fun _ _ _ => Ok tt)
    [[]] [w ex_flat_trajectory] [m ex_flat_trajectory] [ex_d]
    [scalar fzero] [ex_g] 2 None
  = Raise ValueError.
Proof. repeat split. Qed.

End XDGAProofs.

(** ** The estimators with memory *)

Module MemoryProofs.
Import Memory.

(** *** Lag times *)

Lemma memlags_not_divisible (lag mem : Z) :
  (mem + 1 <> 0)%Z -> (lag mod (mem + 1) <> 0)%Z ->
  _memlags lag mem = Raise AssertionError.
Proof.
  intros Hm Hr. unfold _memlags, py_mod.
  destruct (Z.eqb_spec (mem + 1) 0) as [? | _]; [contradiction |].
  cbn [bind]. destruct (Z.eqb_spec (lag mod (mem + 1)) 0); [contradiction |].
  reflexivity.
Qed.

Lemma arange_count (delta n : Z) :
  (0 < delta)%Z -> (0 <= n)%Z ->
  (if (n * delta + 1 - 0) mod delta =? 0
   then (n * delta + 1 - 0) / delta
   else (n * delta + 1 - 0) / delta + 1)%Z = (n + 1)%Z.
Proof.
  intros Hd Hn. rewrite Z.sub_0_r.
  rewrite (Z.add_comm (n * delta) 1), Z.mod_add, Z.div_add by lia.
  destruct (Z.eq_dec delta 1) as [-> | Hne].
  - rewrite Z.mod_1_r, Z.div_1_r. cbn [Z.eqb]. lia.
  - rewrite Z.mod_small, Z.div_small by lia.
    change (1 =? 0)%Z with false. cbn iota. lia.
Qed.

Lemma memlags_divisible (lag mem : Z) :
  (0 < lag)%Z -> (0 <= mem)%Z -> (lag mod (mem + 1) = 0)%Z ->
  _memlags lag mem
  = Ok (map (fun k => (Z.of_nat k * (lag / (mem + 1)))%Z)
            (seq 0 (Z.to_nat (mem + 2)))).
Proof.
  intros Hlag Hmem Hr. unfold _memlags, py_mod, py_floordiv.
  destruct (Z.eqb_spec (mem + 1) 0) as [? | _]; [lia |].
  cbn [bind]. rewrite Hr. cbn [Z.eqb assert bind].
  set (delta := (lag / (mem + 1))%Z).
  assert (Hmul : lag = ((mem + 1) * delta)%Z).
  { unfold delta. apply Z.div_exact; [lia | exact Hr]. }
  assert (Hd : (0 < delta)%Z) by nia.
  unfold np_arange.
  destruct (Z.eqb_spec delta 0) as [? | _]; [lia |].
  replace (lag + 1 - 0)%Z with ((mem + 1) * delta + 1 - 0)%Z by lia.
  rewrite arange_count by lia.
  replace (mem + 1 + 1)%Z with (mem + 2)%Z by lia.
  reflexivity.
Qed.

Lemma estimator_not_divisible {R : Type} (matrix_at : Z -> exc array2)
  (solve_step : list array2 -> exc R) (lag mem : Z) :
  (mem + 1 <> 0)%Z -> (lag mod (mem + 1) <> 0)%Z ->
  estimator matrix_at solve_step lag mem = Raise AssertionError.
Proof.
  intros Hm Hr. unfold estimator.
  now rewrite memlags_not_divisible.
Qed.



(** *** Lists, slices and broadcasting *)

Lemma length_zip_with {A B C : Type} (f : A -> B -> C) xs ys :
  length (zip_with f xs ys) = Nat.min (length xs) (length ys).
Proof.
  revert ys; induction xs as [| x xs IH]; intros [| y ys]; simpl; auto.
Qed.

Lemma nth_error_zip_with {A B C : Type} (f : A -> B -> C) xs ys k x y :
  nth_error xs k = Some x -> nth_error ys k = Some y ->
  nth_error (zip_with f xs ys) k = Some (f x y).
Proof.
  revert ys k; induction xs as [| x' xs IH]; intros [| y' ys] [| k]; simpl;
    try discriminate.
  - intros Hx Hy. inversion Hx; inversion Hy; reflexivity.
  - apply IH.
Qed.

Lemma nth_error_in_range {A : Type} (l : list A) k :
  k < length l -> exists a, nth_error l k = Some a.
Proof.
  intros H. destruct (nth_error l k) as [a |] eqn:E; [eauto |].
  apply nth_error_None in E. lia.
Qed.

Lemma bcast2_same_length {A B C : Type} (f : A -> B -> C) xs ys :
  length xs = length ys -> bcast2 f xs ys = Ok (zip_with f xs ys).
Proof. intros H. unfold bcast2. now rewrite H, Nat.eqb_refl. Qed.

Lemma py_slice_length {A : Type} (start stop : option Z) (l : list A) :
  length (py_slice start stop l)
  = Nat.min
      ((match stop with None => length l | Some i => slice_bound (length l) i end)
       - (match start with None => 0 | Some i => slice_bound (length l) i end))
      (length l
       - (match start with None => 0 | Some i => slice_bound (length l) i end)).
Proof. unfold py_slice. now rewrite length_firstn, length_skipn. Qed.

Lemma slice_drop_last_length {A : Type} (l : list A) :
  length (py_slice None (Some (-1)%Z) l) = length l - 1.
Proof.
  rewrite py_slice_length. unfold slice_bound.
  change (-1 <? 0)%Z with true. cbn iota. lia.
Qed.

Lemma slice_from_length {A : Type} (l : list A) (a : nat) :
  length (py_slice (Some (Z.of_nat a)) None l) = length l - a.
Proof.
  rewrite py_slice_length. unfold slice_bound.
  destruct (Z.ltb_spec (Z.of_nat a) 0); lia.
Qed.

Lemma slice_between_length {A : Type} (l : list A) (a b : nat) :
  a <= b -> b <= length l ->
  length (py_slice (Some (Z.of_nat a)) (Some (Z.of_nat b)) l) = b - a.
Proof.
  intros Hab Hb. rewrite py_slice_length. unfold slice_bound.
  destruct (Z.ltb_spec (Z.of_nat a) 0); destruct (Z.ltb_spec (Z.of_nat b) 0); lia.
Qed.

Lemma matvec_ok (A : array2) (v : vec) :
  ncols A = length v -> matvec A v = Ok (map (fun r => dot r v) (rows A)).
Proof. intros H. unfold matvec. now rewrite H, Nat.eqb_refl. Qed.

Lemma mapM_Forall2 {A B : Type} (f : A -> exc B) (P : A -> B -> Prop) xs :
  Forall (fun x => exists y, f x = Ok y /\ P x y) xs ->
  exists ys, mapM f xs = Ok ys /\ Forall2 P xs ys.
Proof.
  induction 1 as [| x xs (y & Hy & HP) _ (ys & Hys & HF)]; simpl.
  - exists []. split; [reflexivity | constructor].
  - exists (y :: ys). rewrite Hy. simpl. rewrite Hys. simpl.
    split; [reflexivity | now constructor].
Qed.

(** *** The transforms leave the guess alone outside of the domain *)

Lemma fdiv_zero (c : flt) : c <> fzero -> c <> NaN -> fdiv fzero c = fzero.
Proof.
  intros H0 Hn. destruct c as [q | s | ]; simpl; [| reflexivity | congruence].
  destruct (Qc_eq_dec q 0%Qc) as [-> | _]; [exfalso; now apply H0 |].
  unfold Qcdiv. now rewrite Qcmult_0_l.
Qed.

Lemma forecast_frames_guess coeffs c y d g :
  py_index coeffs (-1) = Ok c -> c <> fzero -> c <> NaN ->
  ncols y = length coeffs - 1 -> nrows y = length d -> length g = length d ->
  exists r, forecast_frames coeffs y d g = Ok r /\
    length r = length g /\
    forall k, nth_error d k = Some false -> nth_error r k = nth_error g k.
Proof.
  intros Hc H0 Hn Hy Hd Hg. unfold forecast_frames.
  rewrite matvec_ok by (now rewrite slice_drop_last_length).
  cbn [bind]. unfold np_where0.
  rewrite bcast2_same_length by (rewrite length_map; symmetry; exact Hd).
  cbn [bind]. rewrite Hc. cbn [bind].
  rewrite bcast2_same_length
    by (rewrite length_map, length_zip_with, length_map; unfold nrows in Hd; lia).
  eexists. split; [reflexivity |]. split.
  - rewrite length_zip_with, length_map, length_zip_with, length_map.
    unfold nrows in Hd. lia.
  - intros k Hk.
    assert (Hlt : k < length d) by (apply nth_error_Some; congruence).
    destruct (nth_error_in_range g k ltac:(lia)) as (gk & Hgk).
    destruct (nth_error_in_range (rows y) k ltac:(unfold nrows in Hd; lia))
      as (rk & Hrk).
    rewrite Hgk.
    erewrite nth_error_zip_with; [| exact Hgk |].
    2:{ rewrite nth_error_map. erewrite nth_error_zip_with; [reflexivity | exact Hk |].
        rewrite nth_error_map, Hrk. reflexivity. }
    cbn iota. now rewrite fdiv_zero, fadd_0_r.
Qed.

Lemma aftcast_frames_guess coeffs xw xb d g :
  length coeffs = 1 + ncols xw + ncols xb ->
  nrows xw = length d -> nrows xb = length d -> length g = length d ->
  exists r com, aftcast_frames coeffs xw xb d g = Ok r /\
    aftcast_com coeffs xw = Ok com /\
    length r = length g /\ length com = length g /\
    forall k comk, nth_error d k = Some false ->
      nth_error com k = Some comk -> comk <> fzero -> comk <> NaN ->
      nth_error r k = nth_error g k.
Proof.
  intros Hlen Hw Hb Hg. unfold aftcast_frames, aftcast_com.
  destruct coeffs as [| c0 rest] eqn:Ec; [simpl in Hlen; lia |].
  rewrite <- Ec in *.
  assert (Hi : py_index coeffs 0 = Ok c0) by (subst coeffs; reflexivity).
  rewrite Hi. cbn [bind].
  assert (Hl : length coeffs = 1 + ncols xw + ncols xb) by (subst; exact Hlen).
  rewrite matvec_ok.
  2:{ change 1%Z with (Z.of_nat 1).
      rewrite slice_between_length by lia. lia. }
  cbn [bind].
  rewrite matvec_ok by (rewrite slice_from_length; lia).
  cbn [bind]. unfold np_where0.
  rewrite bcast2_same_length by (rewrite length_map; symmetry; exact Hb).
  cbn [bind].
  rewrite bcast2_same_length
    by (rewrite length_zip_with, !length_map; unfold nrows in *; lia).
  cbn [bind].
  rewrite bcast2_same_length
    by (rewrite !length_zip_with, !length_map; unfold nrows in *; lia).
  eexists. eexists. split; [reflexivity |]. split; [reflexivity |].
  split; [| split].
  - rewrite !length_zip_with, !length_map. unfold nrows in *. lia.
  - rewrite !length_map. unfold nrows in *. lia.
  - intros k comk Hk Hcom H0 Hn.
    assert (Hlt : k < length d) by (apply nth_error_Some; congruence).
    destruct (nth_error_in_range g k ltac:(lia)) as (gk & Hgk).
    destruct (nth_error_in_range (rows xb) k ltac:(unfold nrows in Hb; lia))
      as (rk & Hrk).
    rewrite Hgk.
    erewrite nth_error_zip_with; [| exact Hgk |].
    2:{ erewrite nth_error_zip_with; [reflexivity | | exact Hcom].
        erewrite nth_error_zip_with; [reflexivity | exact Hk |].
        rewrite nth_error_map, Hrk. reflexivity. }
    cbn iota. now rewrite fdiv_zero, fadd_0_r.
Qed.

(** C6, as amended.  [forecast_transform] returns exactly the guess at
    every frame where [in_domain] is false provided the divisor
    [coeffs[-1]] is neither zero nor NaN; [aftcast_transform] returns
    exactly the guess at every frame where [in_domain] is false and the
    divisor [com] of that frame is neither zero nor NaN.  The arrays of
    one trajectory have one number of frames, and the bases as many
    columns as the coefficient vector provides for. *)
Theorem transforms_preserve_guess :
  (forall coeffs c basis in_domain guess,
     py_index coeffs (-1) = Ok c -> c <> fzero -> c <> NaN ->
     Forall (fun ydg : array2 * list bool * vec =>
               let '(y, d, g) := ydg in
               ncols y = length coeffs - 1 /\
               nrows y = length d /\ length g = length d)
            (zip3 basis in_domain guess) ->
     exists res,
       forecast_transform coeffs basis in_domain guess = Ok res /\
       Forall2 (fun (ydg : array2 * list bool * vec) (r : vec) =>
                  let '(y, d, g) := ydg in
                  length r = length g /\
                  forall k, nth_error d k = Some false ->
                            nth_error r k = nth_error g k)
               (zip3 basis in_domain guess) res) /\
  (forall coeffs w_basis basis in_domain guess,
     Forall (fun xxdg : array2 * array2 * list bool * vec =>
               let '(xw, xb, d, g) := xxdg in
               length coeffs = 1 + ncols xw + ncols xb /\
               nrows xw = length d /\ nrows xb = length d /\
               length g = length d)
            (zip4 w_basis basis in_domain guess) ->
     exists res,
       aftcast_transform coeffs w_basis basis in_domain guess = Ok res /\
       Forall2 (fun (xxdg : array2 * array2 * list bool * vec) (r : vec) =>
                  let '(xw, xb, d, g) := xxdg in
                  length r = length g /\
                  exists com,
                    aftcast_com coeffs xw = Ok com /\
                    length com = length g /\
                    forall k comk,
                      nth_error d k = Some false ->
                      nth_error com k = Some comk ->
                      comk <> fzero -> comk <> NaN ->
                      nth_error r k = nth_error g k)
               (zip4 w_basis basis in_domain guess) res).
Proof.
  split.
  - intros coeffs c basis in_domain guess Hc H0 Hn Hwf.
    unfold forecast_transform. apply mapM_Forall2.
    eapply Forall_impl; [| exact Hwf].
    intros [[y d] g] (Hy & Hd & Hg).
    destruct (forecast_frames_guess coeffs c y d g Hc H0 Hn Hy Hd Hg)
      as (r & Hr & Hlen & Hk).
    exists r. auto.
  - intros coeffs w_basis basis in_domain guess Hwf.
    unfold aftcast_transform. apply mapM_Forall2.
    eapply Forall_impl; [| exact Hwf].
    intros [[[xw xb] d] g] (Hl & Hw & Hb & Hg).
    destruct (aftcast_frames_guess coeffs xw xb d g Hl Hw Hb Hg)
      as (r & com & Hr & Hcom & Hlr & Hlc & Hk).
    exists r. split; [exact Hr |]. split; [exact Hlr |].
    exists com. auto.
Qed.

Lemma transforms_preserve_guess_witness :
  (exists res,
     forecast_transform [of_int 2; fone] [Array2 1 [[of_int 5]; [of_int 7]]]
       [[true; false]] [[of_int 1; of_int 3]] = Ok res /\
     Forall2 (fun (ydg : array2 * list bool * vec) (r : vec) =>
                let '(y, d, g) := ydg in
                length r = length g /\
                forall k, nth_error d k = Some false ->
                          nth_error r k = nth_error g k)
             [(Array2 1 [[of_int 5]; [of_int 7]], [true; false],
               [of_int 1; of_int 3])] res) /\
  (exists res,
     aftcast_transform [fone; of_int 2; of_int 3]
       [Array2 1 [[fone]; [fone]]] [Array2 1 [[of_int 5]; [of_int 7]]]
       [[true; false]] [[of_int 1; of_int 3]] = Ok res /\
     length res = 1).
Proof.
  split.
  - apply (proj1 transforms_preserve_guess [of_int 2; fone] fone
             [Array2 1 [[of_int 5]; [of_int 7]]] [[true; false]]
             [[of_int 1; of_int 3]]).
    + reflexivity.
    + discriminate.
    + discriminate.
    + repeat constructor.
  - destruct (proj2 transforms_preserve_guess [fone; of_int 2; of_int 3]
                [Array2 1 [[fone]; [fone]]] [Array2 1 [[of_int 5]; [of_int 7]]]
                [[true; false]] [[of_int 1; of_int 3]])
      as (res & Hres & HF).
    + repeat constructor.
    + exists res. split; [exact Hres |].
      apply Forall2_length in HF. now rewrite <- HF.
Defined.

(** C6 as stated fails: with a zero divisor the result at a frame
    outside of the domain is NaN, not the guess. *)
Lemma transforms_zero_divisor :
  forecast_transform [of_int 2; fzero] [Array2 1 [[of_int 5]]]
    [[false]] [[of_int 1]] = Ok [[NaN]] /\
  aftcast_transform [fzero; fzero; of_int 2]
    [Array2 1 [[of_int 3]]] [Array2 1 [[of_int 5]]]
    [[false]] [[of_int 1]] = Ok [[NaN]] /\
  [[NaN]] <> [[of_int 1]].
Proof.
  split; [reflexivity |]. split; [reflexivity | discriminate].
Qed.

(** *** The example solver meets the contract of [linalg.solve] *)

Import Example.

Lemma cramer_inv (A : array2) (b x : vec) :
  cramer A b = Ok x ->
  (A = Array2 0 [] /\ b = [] /\ x = []) \/
  (exists a y,
     A = Array2 1 [[Fin a]] /\ b = [Fin y] /\ a <> 0%Qc /\
     x = [Fin (y / a)%Qc]) \/
  (exists a b' c d y z,
     A = Array2 2 [[Fin a; Fin b']; [Fin c; Fin d]] /\ b = [Fin y; Fin z] /\
     (a * d - b' * c)%Qc <> 0%Qc /\
     x = [Fin ((y * d - b' * z) / (a * d - b' * c))%Qc;
          Fin ((a * z - y * c) / (a * d - b' * c))%Qc]).
Proof.
  intros H. unfold cramer in H.
  repeat match type of H with
         | context [match ?s with _ => _ end] => destruct s; try discriminate H
         end;
    inversion H; subst.
  - left. auto.
  - right. left. eauto 10.
  - right. right. do 6 eexists. eauto 10.
Qed.

Lemma cramer_raise (A : array2) (b : vec) (e : pyerror) :
  cramer A b = Raise e -> e = LinAlgError.
Proof.
  intros H. unfold cramer in H.
  repeat match type of H with
         | context [match ?s with _ => _ end] => destruct s
         end;
    now inversion H.
Qed.

Lemma cramer_sound (A : array2) (b x : vec) :
  cramer A b = Ok x -> matvec A x = Ok b.
Proof.
  intros H. apply cramer_inv in H.
  destruct H as [(-> & -> & ->) | [(a & y & -> & -> & Ha & ->)
                                  | (a & b' & c & d & y & z & -> & -> & Hd & ->)]].
  - reflexivity.
  - unfold matvec, dot. simpl. do 3 f_equal. now field.
  - unfold matvec, dot. simpl. do 2 f_equal; [| f_equal]; f_equal; now field.
Qed.

Lemma cramer_singular (A : array2) (b : vec) :
  singular A -> cramer A b = Raise LinAlgError.
Proof.
  intros (Hsq & v & Hlen & (x & Hin & Hx) & Hz).
  destruct (cramer A b) as [e | s] eqn:E.
  - f_equal. now apply cramer_raise in E.
  - exfalso. apply cramer_inv in E.
    destruct E as [(-> & _) | [(a & y & -> & _ & Ha & _)
                                | (a & b' & c & d & y & z & -> & _ & Hd & _)]].
    + destruct v; [contradiction | discriminate].
    + destruct v as [| x0 [| ? ?]]; try discriminate.
      destruct Hin as [-> | []].
      unfold dot, fzero in Hz.
      cbn [map fold_left combine fst snd fadd fmul rows nrows repeat length]
        in Hz.
      assert (H0 : (0 + a * x = 0)%Qc) by congruence.
      rewrite Qcplus_0_l in H0.
      apply Qcmult_integral in H0. tauto.
    + destruct v as [| x0 [| x1 [| ? ?]]]; try discriminate.
      unfold dot, fzero in Hz.
      cbn [map fold_left combine fst snd fadd fmul rows nrows repeat length]
        in Hz.
      assert (H0 : (0 + a * x0 + b' * x1 = 0)%Qc) by congruence.
      assert (H1 : (0 + c * x0 + d * x1 = 0)%Qc) by congruence.
      rewrite Qcplus_0_l in H0, H1.
      assert (Hx0 : ((a * d - b' * c) * x0 = 0)%Qc).
      { replace ((a * d - b' * c) * x0)%Qc
          with (d * (a * x0 + b' * x1) - b' * (c * x0 + d * x1))%Qc by ring.
        rewrite H0, H1. ring. }
      assert (Hx1 : ((a * d - b' * c) * x1 = 0)%Qc).
      { replace ((a * d - b' * c) * x1)%Qc
          with (a * (c * x0 + d * x1) - c * (a * x0 + b' * x1))%Qc by ring.
        rewrite H0, H1. ring. }
      apply Qcmult_integral in Hx0, Hx1.
      destruct Hin as [-> | [-> | []]]; tauto.
Qed.

Lemma cramer2_sound (A B X : array2) :
  cramer2 A B = Ok X -> matmul2 A X = Ok B.
Proof.
  intros H. unfold cramer2 in H.
  destruct B as [nc rs].
  destruct nc as [| [| [| nc]]]; try discriminate H.
  - (* one column *)
    destruct rs as [| [| y [| ? ?]] [| ? ?]]; try discriminate H.
    destruct (cramer A [y]) as [e | x] eqn:E; [discriminate |].
    cbn [bind] in H. destruct x as [| x0 [| ? ?]]; try discriminate.
    inversion H; subst X. apply cramer_sound in E.
    unfold matvec in E. unfold matmul2.
    cbn [length nrows rows ncols] in *.
    destruct (ncols A =? 1); [| discriminate].
    destruct (rows A) as [| r [| ? ?]]; try discriminate.
    cbn [map seq column rows nth] in *.
    injection E as E. now rewrite E.
  - (* two columns *)
    destruct rs as [| [| y0 [| z0 [| ? ?]]] [| [| y1 [| z1 [| ? ?]]] [| ? ?]]];
      try discriminate H.
    destruct (cramer A [y0; y1]) as [e | x] eqn:E; [discriminate |].
    cbn [bind] in H.
    destruct (cramer A [z0; z1]) as [e | z] eqn:E0; [discriminate |].
    cbn [bind] in H.
    destruct x as [| x0 [| x1 [| ? ?]]]; try discriminate.
    destruct z as [| w0 [| w1 [| ? ?]]]; try discriminate.
    inversion H; subst X. apply cramer_sound in E, E0.
    unfold matvec in E, E0. unfold matmul2.
    cbn [length nrows rows ncols] in *.
    destruct (ncols A =? 2); [| discriminate].
    destruct (rows A) as [| r [| r' [| ? ?]]]; try discriminate.
    cbn [map seq column rows nth] in *.
    injection E as E E'. injection E0 as E0 E0'.
    now rewrite E, E', E0, E0'.
Qed.

(** *** Projection coefficients *)

Lemma py_index_last {A : Type} (l : list A) (a : A) :
  py_index (l ++ [a]) (-1) = Ok a.
Proof.
  unfold py_index. rewrite length_app. cbn [length].
  change (-1 <? 0)%Z with true. cbn iota.
  destruct (Z.ltb_spec (-1 + Z.of_nat (length l + 1)) 0) as [? | _]; [lia |].
  destruct (Z.leb_spec (Z.of_nat (length l + 1))
              (-1 + Z.of_nat (length l + 1))) as [? | _]; [lia |].
  cbn [orb].
  replace (Z.to_nat (-1 + Z.of_nat (length l + 1))) with (length l) by lia.
  now rewrite nth_error_app2, Nat.sub_diag by lia.
Qed.

Lemma map2_add_zero (A : array2) : map2 (fun v => fadd v fzero) A = A.
Proof.
  destruct A as [nc rs]. unfold map2. cbn [ncols rows]. f_equal.
  rewrite <- (map_id rs) at 2. apply map_ext. intros r.
  rewrite <- (map_id r) at 2. apply map_ext. intros v. apply fadd_0_r.
Qed.

Lemma generator_no_memory (c0 c1 : array2) :
  generator [c0; c1] [] = classic_generator c0 c1.
Proof.
  unfold generator, classic_generator.
  change (py_index [c0; c1] 1) with (Ok c1).
  change (py_index [c0; c1] 0) with (Ok c0).
  cbn [bind py_sum]. destruct (ew2 fsub c1 c0) as [e | d]; [reflexivity |].
  cbn [bind add_sum]. now rewrite map2_add_zero.
Qed.

Lemma py_index_seq_last (n : nat) :
  1 <= n -> py_index (seq 0 n) (-1) = Ok (n - 1).
Proof.
  intros Hn. replace n with (n - 1 + 1) at 1 by lia.
  rewrite seq_app. cbn [seq Nat.add]. apply py_index_last.
Qed.

Lemma py_index_seq_first (n : nat) :
  1 <= n -> py_index (seq 0 n) 0 = Ok 0.
Proof.
  intros Hn. destruct n as [| n]; [lia |]. unfold py_index.
  rewrite length_seq. change (0 <? 0)%Z with false. cbn iota.
  destruct (Z.leb_spec (Z.of_nat (S n)) 0) as [? | _]; [lia |].
  reflexivity.
Qed.

Lemma slice_col_last (a b : option Z) (A : array2) :
  1 <= ncols A ->
  slice_col_at a b (-1) A = Ok (column (ncols A - 1) (slice_rows a b A)).
Proof.
  intros H. unfold slice_col_at. now rewrite py_index_seq_last.
Qed.

Lemma slice_col_first (a b : option Z) (A : array2) :
  1 <= ncols A ->
  slice_col_at a b 0 A = Ok (column 0 (slice_rows a b A)).
Proof.
  intros H. unfold slice_col_at. now rewrite py_index_seq_first.
Qed.

Lemma slice_inner_length {A : Type} (l : list A) :
  length (py_slice (Some 1%Z) (Some (-1)%Z) l) = length l - 2.
Proof.
  rewrite py_slice_length. unfold slice_bound.
  change (1 <? 0)%Z with false. change (-1 <? 0)%Z with true. cbn iota. lia.
Qed.

Lemma matvec_length (A : array2) (x b : vec) :
  matvec A x = Ok b -> length x = ncols A.
Proof.
  unfold matvec. destruct (Nat.eqb_spec (ncols A) (length x)); [auto |].
  discriminate.
Qed.

Section Contract.

(** Modelled from the spec: [_memory.memory] and [linalg.solve], which
    are not among the sources.  [linalg.solve(A, b)] solves the linear
    system [A x = b] and fails with a singularity error if [A] is not
    invertible; the memory extractor returns the [mem] correction
    matrices of [mem+2] correlation matrices, and none for [mem = 0]. *)
Variable memory : list array2 -> exc (list array2).
Variable solve : array2 -> vec -> exc vec.
Variable solve2 : array2 -> array2 -> exc array2.

Hypothesis solve_sound :
  forall A b x, solve A b = Ok x -> matvec A x = Ok b.
Hypothesis solve_singular :
  forall A b, singular A -> solve A b = Raise LinAlgError.
Hypothesis solve2_sound :
  forall A B X, solve2 A B = Ok X -> matmul2 A X = Ok B.
Hypothesis memory_none :
  forall c0 c1, memory [c0; c1] = Ok [].




(** *** No memory term: the classic estimator *)

Lemma forward_coeffs_no_memory (c0 c1 : array2) :
  forward_coeffs memory solve [c0; c1] = classic_forward_coeffs solve c0 c1.
Proof.
  unfold forward_coeffs, classic_forward_coeffs.
  rewrite memory_none. cbn [bind]. now rewrite generator_no_memory.
Qed.

Lemma backward_coeffs_no_memory (c0 c1 : array2) :
  backward_coeffs memory solve solve2 [c0; c1]
  = classic_backward_coeffs solve solve2 c0 c1.
Proof.
  unfold backward_coeffs, classic_backward_coeffs.
  rewrite memory_none. cbn [bind].
  change (py_index [c0; c1] 0) with (Ok c0). cbn [bind].
  now rewrite generator_no_memory.
Qed.

Lemma integral_solve_no_memory (c0 c1 : array2) (lag : Z) :
  integral_solve memory solve solve2 [c0; c1] lag 0
  = classic_integral_solve solve solve2 c0 c1 lag.
Proof.
  unfold integral_solve, classic_integral_solve, py_mod, py_floordiv.
  change (Z.of_nat (length [c0; c1]) =? 0 + 2)%Z with true.
  change (0 + 1 =? 0)%Z with false. cbn [assert bind].
  change (0 + 1)%Z with 1%Z. rewrite Z.mod_1_r, Z.div_1_r.
  cbn [Z.eqb assert bind].
  rewrite memory_none. cbn [bind].
  change (py_index [c0; c1] 0) with (Ok c0). cbn [bind].
  now rewrite generator_no_memory.
Qed.

Lemma memlags_no_memory (lag : Z) :
  (0 < lag)%Z -> _memlags lag 0 = Ok [0; lag]%Z.
Proof.
  intros Hlag. rewrite memlags_divisible by (try apply Z.mod_1_r; lia).
  change (0 + 1)%Z with 1%Z. rewrite Z.div_1_r.
  change (Z.to_nat (0 + 2)) with 2. cbn [seq map Z.of_nat].
  do 3 f_equal. lia.
Qed.

Lemma estimator_no_memory {R : Type} (matrix_at : Z -> exc array2)
  (solve_step : list array2 -> exc R) (classic_step : array2 -> array2 -> exc R)
  (lag : Z) :
  (0 < lag)%Z ->
  (forall c0 c1, solve_step [c0; c1] = classic_step c0 c1) ->
  estimator matrix_at solve_step lag 0
  = classic_estimator matrix_at classic_step lag.
Proof.
  intros Hlag Hstep. unfold estimator, classic_estimator.
  rewrite memlags_no_memory by exact Hlag. cbn [bind mapM].
  destruct (matrix_at 0%Z) as [e | c0]; [reflexivity |]. cbn [bind].
  destruct (matrix_at lag) as [e | c1]; [reflexivity |]. cbn [bind].
  apply Hstep.
Qed.

(** C7.  With [mem = 0], that is with the two correlation matrices at
    the lag times [0] and [lag], the memory correction is the empty sum:
    [forward_coeffs], [backward_coeffs] and [integral_solve] are the
    classic ones, over the generator [mats[1] - mats[0]], and every
    estimator with memory is the classic single-lag estimator. *)
Theorem no_memory_is_classic :
  (forall c0 c1,
     forward_coeffs memory solve [c0; c1] = classic_forward_coeffs solve c0 c1 /\
     backward_coeffs memory solve solve2 [c0; c1]
     = classic_backward_coeffs solve solve2 c0 c1 /\
     forall lag,
       integral_solve memory solve solve2 [c0; c1] lag 0
       = classic_integral_solve solve solve2 c0 c1 lag) /\
  (forall lag matrix_at basis w_basis weights in_domain guess,
     (0 < lag)%Z ->
     _memlags lag 0 = Ok [0; lag]%Z /\
     reweight memory solve solve2 matrix_at basis weights lag 0
     = classic_estimator matrix_at
         (fun c0 c1 => coeffs <- classic_backward_coeffs solve solve2 c0 c1 ;;
                       reweight_transform coeffs basis weights) lag /\
     forward_committor memory solve matrix_at basis in_domain guess lag 0
     = classic_estimator matrix_at
         (fun c0 c1 => coeffs <- classic_forward_coeffs solve c0 c1 ;;
                       forecast_transform coeffs basis in_domain guess) lag /\
     forward_mfpt memory solve matrix_at basis in_domain guess lag 0
     = classic_estimator matrix_at
         (fun c0 c1 => coeffs <- classic_forward_coeffs solve c0 c1 ;;
                       forecast_transform coeffs basis in_domain guess) lag /\
     forward_feynman_kac memory solve matrix_at basis in_domain guess lag 0
     = classic_estimator matrix_at
         (fun c0 c1 => coeffs <- classic_forward_coeffs solve c0 c1 ;;
                       forecast_transform coeffs basis in_domain guess) lag /\
     backward_committor memory solve solve2 matrix_at w_basis basis
       in_domain guess lag 0
     = classic_estimator matrix_at
         (fun c0 c1 => coeffs <- classic_backward_coeffs solve solve2 c0 c1 ;;
                       aftcast_transform coeffs w_basis basis in_domain guess)
         lag /\
     backward_mfpt memory solve solve2 matrix_at w_basis basis
       in_domain guess lag 0
     = classic_estimator matrix_at
         (fun c0 c1 => coeffs <- classic_backward_coeffs solve solve2 c0 c1 ;;
                       aftcast_transform coeffs w_basis basis in_domain guess)
         lag /\
     backward_feynman_kac memory solve solve2 matrix_at w_basis basis
       in_domain guess lag 0
     = classic_estimator matrix_at
         (fun c0 c1 => coeffs <- classic_backward_coeffs solve solve2 c0 c1 ;;
                       aftcast_transform coeffs w_basis basis in_domain guess)
         lag /\
     integral_estimator memory solve solve2 matrix_at lag 0
     = classic_estimator matrix_at
         (fun c0 c1 => classic_integral_solve solve solve2 c0 c1 lag) lag).
Proof.
  split.
  - intros c0 c1. split; [apply forward_coeffs_no_memory |].
    split; [apply backward_coeffs_no_memory |].
    intros lag. apply integral_solve_no_memory.
  - intros lag matrix_at basis w_basis weights in_domain guess Hlag.
    split; [now apply memlags_no_memory |].
    repeat split; apply estimator_no_memory; try exact Hlag; intros c0 c1.
    + unfold reweight_solve. now rewrite backward_coeffs_no_memory.
    + unfold forecast_solve. now rewrite forward_coeffs_no_memory.
    + unfold forecast_solve. now rewrite forward_coeffs_no_memory.
    + unfold forecast_solve. now rewrite forward_coeffs_no_memory.
    + unfold aftcast_solve. now rewrite backward_coeffs_no_memory.
    + unfold aftcast_solve. now rewrite backward_coeffs_no_memory.
    + unfold aftcast_solve. now rewrite backward_coeffs_no_memory.
    + apply integral_solve_no_memory.
Qed.

End Contract.

(** *** Instances on the example data *)





Lemma no_memory_is_classic_witness :
  forward_coeffs no_memory cramer [ex_c0; ex_c1]
  = classic_forward_coeffs cramer ex_c0 ex_c1 /\
  forward_committor no_memory cramer
    (fun t => Ok (if (t =? 0)%Z then ex_c0 else ex_c1)) [] [] [] 4 0
  = classic_estimator (fun t => Ok (if (t =? 0)%Z then ex_c0 else ex_c1))
      (fun c0 c1 => coeffs <- classic_forward_coeffs cramer c0 c1 ;;
                    forecast_transform coeffs [] [] []) 4.
Proof.
  destruct (no_memory_is_classic no_memory cramer cramer2
              (fun _ _ => eq_refl)) as (Hcoeffs & Hest).
  split.
  - apply Hcoeffs.
  - apply (Hest 4%Z (fun t => Ok (if (t =? 0)%Z then ex_c0 else ex_c1))
             [] [] [] [] [] ltac:(lia)).
Defined.

End MemoryProofs.

(** ** Further properties of the extended engine *)

Module XDGAExtras.
Import XDGA XDGAProofs Example.

(** *** A state outside of the domain stays stopped over the whole lag *)

(** A row that is [a] in the boundary column and zero elsewhere is kept
    by the product with a matrix whose last row is the unit vector. *)
Lemma matmul_stopped_row ni (A B : nat -> nat -> flt) (i : nat) (a : flt) :
  finite a ->
  (forall k, k <= ni -> A i k = if k =? ni then a else fzero) ->
  unit_last_row ni B -> finite_matrix ni B ->
  forall j, j <= ni ->
    matmul (ni + 1) A B i j = if j =? ni then a else fzero.
Proof.
  intros Fa HA HB FB j Hj. unfold matmul.
  rewrite Nat.add_1_r, fold_seq_S.
  rewrite (sum_of_zeros (fun k => fmul (A i k) (B k j))).
  - rewrite (HA ni), Nat.eqb_refl by lia. rewrite fadd_0_l.
    rewrite (HB j Hj). destruct (j =? ni).
    + now apply fmul_1_r.
    + now apply fmul_0_r.
  - intros k Hk. rewrite (HA k) by lia.
    destruct (Nat.eqb_spec k ni); [lia |].
    apply fmul_0_l, FB; lia.
Qed.

(** A column that is [a] in the boundary row and zero elsewhere is kept
    by the product with a matrix, on its left, whose last column is the
    unit vector. *)
Lemma matmul_stopped_column ni (A B : nat -> nat -> flt) (j : nat) (a : flt) :
  finite a ->
  (forall k, k <= ni -> B k j = if k =? ni then a else fzero) ->
  unit_last_column ni A -> finite_matrix ni A ->
  forall i, i <= ni ->
    matmul (ni + 1) A B i j = if i =? ni then a else fzero.
Proof.
  intros Fa HB HA FA i Hi. unfold matmul.
  rewrite Nat.add_1_r, fold_seq_S.
  rewrite (sum_of_zeros (fun k => fmul (A i k) (B k j))).
  - rewrite (HB ni), Nat.eqb_refl by lia. rewrite fadd_0_l.
    rewrite (HA i Hi). destruct (i =? ni).
    + now apply fmul_1_l.
    + now apply fmul_0_l.
  - intros k Hk. rewrite (HB k) by lia.
    destruct (Nat.eqb_spec k ni); [lia |].
    apply fmul_0_r, FA; lia.
Qed.

Lemma forward_stopped_row ni nt m d f g n w i :
  finite_inputs ni nt m f g -> n + S w <= nt -> i < ni ->
  item d [i; n] = false ->
  forall j, j <= ni ->
    window_product (ni + 1) (_forward_transitions_loop ni nt m d f g) n (S w) i j
    = if j =? ni then item g [i; n] else fzero.
Proof.
  intros Hfin Hn Hi Hd. induction w as [| w IH]; intros j Hj.
  - rewrite window_product_one. unfold matrix_at.
    destruct (forward_loop_boundary ni nt m d f g n i ltac:(lia) Hi Hd)
      as [Hz Hg].
    destruct (Nat.eqb_spec j ni) as [-> | Hne]; [exact Hg | apply Hz; lia].
  - rewrite window_product_succ.
    apply matmul_stopped_row; try exact Hj.
    + apply Hfin; lia.
    + intros k Hk. apply IH; lia.
    + intros k Hk. unfold matrix_at. apply forward_loop_last_row. lia.
    + apply forward_loop_finite; [exact Hfin | lia].
Qed.

Lemma backward_stopped_column ni nt m d f g n w j :
  finite_inputs ni nt m f g -> n + S w <= nt -> j < ni ->
  item d [j; n + S w] = false ->
  forall i, i <= ni ->
    window_product (ni + 1) (_backward_transitions_loop ni nt m d f g) n (S w) i j
    = if i =? ni then item g [j; n + S w] else fzero.
Proof.
  intros Hfin Hn Hj Hd i Hi.
  assert (Hlast : forall k, k <= ni ->
            matrix_at (_backward_transitions_loop ni nt m d f g) (n + w) k j
            = if k =? ni then item g [j; n + S w] else fzero).
  { intros k Hk. unfold matrix_at.
    replace (n + S w) with (n + w + 1) in * by lia.
    destruct (backward_loop_boundary ni nt m d f g (n + w) j ltac:(lia) Hj Hd)
      as [Hz Hg].
    destruct (Nat.eqb_spec k ni) as [-> | Hne]; [exact Hg | apply Hz; lia]. }
  destruct w as [| w].
  - rewrite window_product_one. rewrite Nat.add_0_r in Hlast. now apply Hlast.
  - rewrite window_product_succ.
    destruct (backward_products_last_column ni nt m d f g n w Hfin ltac:(lia))
      as [HU HF].
    apply matmul_stopped_column; try assumption.
    apply Hfin; lia.
Qed.



(** *** The committor and the mean first passage time *)

Lemma zip7_function xs ys ws ms ds fs gs t :
  In t (zip7 xs ys ws ms ds fs gs) -> In (f t) fs.
Proof.
  revert ys ws ms ds fs gs.
  induction xs as [| x0 xs IH];
    intros [| y0 ys] [| w0 ws] [| m0 ms] [| d0 ds] [| f0 fs] [| g0 gs];
    simpl; try contradiction.
  intros [<- | H]; [left; reflexivity | right; eapply IH; exact H].
Qed.

Lemma validate_ok_inv (t : trajectory) (lag : Z) ni nt f' :
  validate t lag = Ok (ni, nt, f') ->
  f' = (if ndim (f t) =? 0 then np_full [ni; ni; nt] (item (f t) []) else f t).
Proof.
  unfold validate. intros H.
  destruct (forallb _ _); cbn [assert bind] in H; [| discriminate].
  destruct (shape (m t)) as [| a [| b [| c [| ? ?]]]]; try discriminate.
  repeat match type of H with
         | context [assert ?b] => destruct b; cbn [assert bind] in H;
                                  [| discriminate]
         end.
  now inversion H.
Qed.

Lemma row_integral_no_source m sh n i k :
  (forall j, j < k -> finite (item m [i; j; n])) ->
  row_integral m (np_full sh fzero) n i k fzero = fzero.
Proof.
  intros Hm. unfold row_integral.
  apply (sum_of_zeros (fun j => fmul (item m [i; j; n]) fzero)).
  intros j Hj. apply fmul_0_r, Hm, Hj.
Qed.

Lemma column_integral_no_source m sh n j k :
  (forall i, i < k -> finite (item m [i; j; n])) ->
  column_integral m (np_full sh fzero) n j k fzero = fzero.
Proof.
  intros Hm. unfold column_integral.
  apply (sum_of_zeros (fun i => fmul (item m [i; j; n]) fzero)).
  intros i Hi. apply fmul_0_r, Hm, Hi.
Qed.

Lemma sum_ext (s t : nat -> flt) (n : nat) (a : flt) :
  (forall k, k < n -> s k = t k) ->
  fold_left (fun acc k => fadd acc (s k)) (seq 0 n) a
  = fold_left (fun acc k => fadd acc (t k)) (seq 0 n) a.
Proof.
  induction n as [| n IH]; intros H; [reflexivity |].
  rewrite !fold_seq_S, IH by (intros; apply H; lia).
  now rewrite H by lia.
Qed.



(** *** The weight check when the lag covers the whole trajectory *)

Lemma whole_slice {A : Type} (l : list A) (lag : Z) :
  lag = 0%Z \/ (Z.of_nat (length l) <= lag)%Z ->
  py_slice (Some (- lag)%Z) None l = l.
Proof.
  intros [-> | Hlag].
  - unfold py_slice, slice_bound. change (- 0 <? 0)%Z with false.
    cbn iota. rewrite Nat.min_0_l, Nat.sub_0_r. cbn [skipn].
    apply firstn_all.
  - destruct (Z.eq_dec lag 0) as [-> | Hne].
    + destruct l; [reflexivity | simpl in Hlag; lia].
    + rewrite tail_slice by lia.
      replace (length l - Z.to_nat lag) with 0 by lia. reflexivity.
Qed.

(** X5.  The weight assertion reads [w[-lag:]].  For [lag = 0] this is
    the whole array, as it is for a lag of at least the number of
    frames: the checks then pass only if every weight is zero, and a
    single nonzero weight raises [AssertionError]. *)
Theorem weights_all_zero_for_degenerate_lag (t : trajectory) (lag : Z) :
  lag = 0%Z \/ (Z.of_nat (length (w t)) <= lag)%Z ->
  (forall v, validate t lag = Ok v -> Forall (fun x => x = fzero) (w t)) /\
  ((exists x, In x (w t) /\ x <> fzero) ->
   validate t lag = Raise AssertionError).
Proof.
  intros Hlag. unfold validate. rewrite (whole_slice (w t) lag Hlag).
  destruct (forallb (fun v => feqb v fzero) (w t)) eqn:E.
  - split.
    + intros _ _. apply Forall_forall. intros x Hx.
      rewrite forallb_forall in E. now apply feqb_zero, E.
    + intros (x & Hx & Hne). exfalso. apply Hne.
      rewrite forallb_forall in E. now apply feqb_zero, E.
  - cbn [assert bind]. split; [discriminate | reflexivity].
Qed.

(** *** The closing transform *)

Lemma dot_zero_row (row c : vec) :
  Forall (fun x => x = fzero) row -> Forall finite c -> dot row c = fzero.
Proof.
  unfold dot. intros Hr. revert c.
  induction Hr as [| x row -> _ IH]; intros c Hc; [reflexivity |].
  destruct Hc as [| y c Fy Fc]; [reflexivity |].
  cbn [combine fold_left fst snd].
  rewrite fmul_0_l by exact Fy. rewrite fadd_0_r. now apply IH.
Qed.

Lemma np_array_rows_same_length (rows : list vec) (n : nat) :
  Forall (fun r => length r = n) rows -> np_array_rows rows = Ok rows.
Proof.
  intros H. destruct H as [| r rest Hr Hrest]; [reflexivity |].
  unfold np_array_rows.
  replace (forallb (fun r' => length r' =? length r) rest) with true;
    [reflexivity |].
  symmetry. apply forallb_forall. intros r' Hin.
  rewrite Forall_forall in Hrest. rewrite (Hrest r' Hin), Hr.
  apply Nat.eqb_refl.
Qed.

Lemma Forall2_right {A B : Type} (P : A -> B -> Prop) (Q : B -> Prop) xs ys :
  (forall x y, P x y -> Q y) -> Forall2 P xs ys -> Forall Q ys.
Proof. intros H HF. induction HF; constructor; eauto. Qed.

Lemma Forall2_weaken {A B : Type} (P Q : A -> B -> Prop) xs ys :
  (forall x y, P x y -> Q x y) -> Forall2 P xs ys -> Forall2 Q xs ys.
Proof. intros H HF. induction HF; constructor; eauto. Qed.

Lemma transform_row coeffs yi gi :
  Forall finite coeffs ->
  ncols yi = length coeffs -> nrows yi = length gi ->
  exists r,
    (p <- matvec yi coeffs ;; bcast2 fadd p gi) = Ok r /\
    length r = length gi /\
    forall k row,
      nth_error (rows yi) k = Some row ->
      Forall (fun x => x = fzero) row ->
      nth_error r k = nth_error gi k.
Proof.
  intros Fc Hc Hr.
  rewrite MemoryProofs.matvec_ok by exact Hc. cbn [bind].
  rewrite MemoryProofs.bcast2_same_length by (now rewrite length_map).
  eexists. split; [reflexivity |]. split.
  - rewrite MemoryProofs.length_zip_with, length_map. unfold nrows in Hr. lia.
  - intros k row Hk Hz.
    assert (Hlt : k < length gi).
    { rewrite <- Hr. apply nth_error_Some. unfold nrows. congruence. }
    destruct (MemoryProofs.nth_error_in_range gi k Hlt) as (gk & Hgk).
    rewrite Hgk.
    erewrite MemoryProofs.nth_error_zip_with;
      [| rewrite nth_error_map, Hk; reflexivity | exact Hgk].
    cbn [option_map]. now rewrite dot_zero_row, fadd_0_l.
Qed.

(** X6.  [transform] returns, for every trajectory and index, one value
    for each frame, and at a frame where the basis functions of that
    index all vanish (as they must outside of the domain) the value is
    exactly the guess, for any real coefficients. *)
Theorem transform_keeps_guess_where_basis_vanishes
  (coeffs : vec) (basis : list (list array2)) (guess : list (list vec)) :
  Forall finite coeffs ->
  Forall (fun yg : list array2 * list vec =>
            let (y, g) := yg in
            exists frames,
              Forall (fun yigi : array2 * vec =>
                        let (yi, gi) := yigi in
                        ncols yi = length coeffs /\
                        nrows yi = frames /\ length gi = frames)
                     (combine y g))
         (combine basis guess) ->
  exists res,
    transform coeffs basis guess = Ok res /\
    Forall2 (fun (yg : list array2 * list vec) (rs : list vec) =>
               let (y, g) := yg in
               Forall2 (fun (yigi : array2 * vec) (r : vec) =>
                          let (yi, gi) := yigi in
                          length r = length gi /\
                          forall k row,
                            nth_error (rows yi) k = Some row ->
                            Forall (fun x => x = fzero) row ->
                            nth_error r k = nth_error gi k)
                       (combine y g) rs)
            (combine basis guess) res.
Proof.
  intros Fc Hwf. unfold transform. apply MemoryProofs.mapM_Forall2.
  eapply Forall_impl; [| exact Hwf].
  intros [y g] (frames & Hrows).
  destruct (MemoryProofs.mapM_Forall2
              (fun yigi : array2 * vec =>
                 let (yi, gi) := yigi in
                 p <- matvec yi coeffs ;; bcast2 fadd p gi)
              (fun (yigi : array2 * vec) (r : vec) =>
                 let (yi, gi) := yigi in
                 length r = frames /\
                 (length r = length gi /\
                  forall k row,
                    nth_error (rows yi) k = Some row ->
                    Forall (fun x => x = fzero) row ->
                    nth_error r k = nth_error gi k))
              (combine y g)) as (rs & Hrs & HF).
  { eapply Forall_impl; [| exact Hrows].
    intros [yi gi] (Hc & Hn & Hg).
    destruct (transform_row coeffs yi gi Fc Hc ltac:(congruence))
      as (r & Hr & Hlen & Hk).
    exists r. split; [exact Hr |]. split; [congruence | auto]. }
  exists rs. rewrite Hrs. cbn [bind]. split.
  - apply (np_array_rows_same_length rs frames).
    eapply Forall2_right; [| exact HF]. intros [yi gi] r [Hl _]. exact Hl.
  - eapply Forall2_weaken; [| exact HF]. intros [yi gi] r [_ Hp]. exact Hp.
Qed.

(** *** Instances on the example data *)





Lemma weights_all_zero_for_degenerate_lag_witness :
  validate ex_bad_trajectory 0 = Raise AssertionError /\
  validate ex_bad_trajectory 7 = Raise AssertionError.
Proof.
  split.
  - apply (proj2 (weights_all_zero_for_degenerate_lag ex_bad_trajectory 0
                    (or_introl eq_refl))).
    exists (of_int 1). split; [right; left; reflexivity | discriminate].
  - assert (Hlag : 7%Z = 0%Z \/
                     (Z.of_nat (length (w ex_bad_trajectory)) <= 7)%Z).
    { right. unfold ex_bad_trajectory. cbn [w length]. lia. }
    apply (proj2 (weights_all_zero_for_degenerate_lag ex_bad_trajectory 7
                    Hlag)).
    exists (of_int 1). split; [right; left; reflexivity | discriminate].
Defined.

Lemma transform_keeps_guess_where_basis_vanishes_witness :
  exists res,
    transform [of_int 2] [[Array2 1 [[of_int 3]; [fzero]]]]
      [[[of_int 1; of_int 5]]] = Ok res /\
    length res = 1.
Proof.
  destruct (transform_keeps_guess_where_basis_vanishes [of_int 2]
              [[Array2 1 [[of_int 3]; [fzero]]]] [[[of_int 1; of_int 5]]])
    as (res & Hres & HF).
  - repeat constructor.
  - repeat constructor. exists 2. repeat constructor.
  - exists res. split; [exact Hres |].
    apply Forall2_length in HF. now rewrite <- HF.
Defined.

End XDGAExtras.

(** ** Further properties of the estimators with memory *)

Module MemoryExtras.
Import Memory MemoryProofs Example.

(** Splits a hypothesis [(x <- c ;; k) = Ok r] into the two steps. *)
Tactic Notation "bind_inv" hyp(H) ident(a) ident(Ha) :=
  apply bind_ok in H; destruct H as (a & Ha & H).

(** *** Lag times *)

(** X7.  For a positive lag that [mem+1] divides, [_memlags] returns
    [mem+2] lag times that start at [0], end at [lag] and increase by
    the same positive step, as [numpy.linspace(0, lag, mem+2)] would. *)
Theorem memlags_like_linspace (lag mem : Z) :
  (0 < lag)%Z -> (0 <= mem)%Z -> (lag mod (mem + 1) = 0)%Z ->
  exists lags,
    _memlags lag mem = Ok lags /\
    length lags = Z.to_nat (mem + 2) /\
    nth_error lags 0 = Some 0%Z /\
    nth_error lags (Z.to_nat (mem + 1)) = Some lag /\
    forall k a b,
      nth_error lags k = Some a -> nth_error lags (S k) = Some b ->
      (b - a = lag / (mem + 1))%Z /\ (a < b)%Z.
Proof.
  intros Hlag Hmem Hr. eexists. split; [now apply memlags_divisible |].
  set (delta := (lag / (mem + 1))%Z).
  assert (Hmul : lag = ((mem + 1) * delta)%Z).
  { unfold delta. apply Z.div_exact; [lia | exact Hr]. }
  assert (Hd : (0 < delta)%Z) by nia.
  assert (Hnth : forall k, k < Z.to_nat (mem + 2) ->
            nth_error (map (fun k => (Z.of_nat k * delta)%Z)
                           (seq 0 (Z.to_nat (mem + 2)))) k
            = Some (Z.of_nat k * delta)%Z).
  { intros k Hk. rewrite nth_error_map, nth_error_seq.
    destruct (Nat.ltb_spec k (Z.to_nat (mem + 2))); [reflexivity | lia]. }
  split; [now rewrite length_map, length_seq |].
  split; [rewrite Hnth by lia; reflexivity |].
  split; [rewrite Hnth by lia; f_equal; lia |].
  intros k a b Ha Hb.
  assert (Hk : S k < Z.to_nat (mem + 2)).
  { assert (Hb' : nth_error (map (fun k => (Z.of_nat k * delta)%Z)
                                  (seq 0 (Z.to_nat (mem + 2)))) (S k) <> None)
      by (rewrite Hb; discriminate).
    apply nth_error_Some in Hb'.
    now rewrite length_map, length_seq in Hb'. }
  rewrite Hnth in Ha, Hb by lia.
  assert (Ea : a = (Z.of_nat k * delta)%Z) by congruence.
  assert (Eb : b = (Z.of_nat (S k) * delta)%Z) by congruence.
  rewrite Nat2Z.inj_succ in Eb. fold delta. split; nia.
Qed.

Lemma memlags_like_linspace_witness :
  exists lags,
    _memlags 32 3 = Ok lags /\ length lags = 5 /\
    nth_error lags 4 = Some 32%Z.
Proof.
  destruct (memlags_like_linspace 32 3 ltac:(lia) ltac:(lia) eq_refl)
    as (lags & Hl & Hlen & _ & Hlast & _).
  exists lags. split; [exact Hl |]. split; [exact Hlen | exact Hlast].
Defined.

(** X8.  Two configurations fail before any matrix is built, with a
    division by zero and not with the assertion on divisibility:
    [mem = -1], where [lag % (mem+1)] divides by zero, and [lag = 0]
    with [mem >= 0], where [numpy.arange] gets the step 0.  Every
    estimator raises the same error. *)
Theorem memlags_division_by_zero (lag mem : Z) :
  mem = (-1)%Z \/ (lag = 0%Z /\ (0 <= mem)%Z) ->
  _memlags lag mem = Raise ZeroDivisionError /\
  forall (R : Type) matrix_at (solve_step : list array2 -> exc R),
    estimator matrix_at solve_step lag mem = Raise ZeroDivisionError.
Proof.
  intros H.
  assert (Hm : _memlags lag mem = Raise ZeroDivisionError).
  { destruct H as [-> | [-> Hmem]]; unfold _memlags, py_mod, py_floordiv.
    - reflexivity.
    - destruct (Z.eqb_spec (mem + 1) 0) as [? | _]; [lia |].
      rewrite Z.mod_0_l, Z.div_0_l by lia. reflexivity. }
  split; [exact Hm |]. intros R matrix_at solve_step.
  unfold estimator. now rewrite Hm.
Qed.

Lemma memlags_division_by_zero_witness :
  _memlags 32 (-1) = Raise ZeroDivisionError /\
  _memlags 0 3 = Raise ZeroDivisionError.
Proof.
  split.
  - apply (proj1 (memlags_division_by_zero 32 (-1) (or_introl eq_refl))).
  - assert (H : 3%Z = (-1)%Z \/ (0%Z = 0%Z /\ (0 <= 3)%Z)) by (right; lia).
    apply (proj1 (memlags_division_by_zero 0 3 H)).
Defined.

(** *** The transforms *)

Lemma dot_finite_from (u v : vec) (a : flt) :
  finite a -> Forall finite u -> Forall finite v ->
  finite (fold_left (fun acc p => fadd acc (fmul (fst p) (snd p)))
            (combine u v) a).
Proof.
  intros Ha Hu. revert v a Ha.
  induction Hu as [| x u Hx Hu IH]; intros v a Ha Hv; [exact Ha |].
  destruct Hv as [| y v Hy Hv]; [exact Ha |].
  cbn [combine fold_left fst snd]. apply IH; [| exact Hv].
  apply finite_fadd; [exact Ha | now apply finite_fmul].
Qed.

Lemma dot_finite (u v : vec) :
  Forall finite u -> Forall finite v -> finite (dot u v).
Proof.
  intros Hu Hv. unfold dot.
  apply dot_finite_from; [exact I | exact Hu | exact Hv].
Qed.

Lemma slice_tail {A : Type} (a : A) (l : list A) :
  py_slice (Some 1%Z) None (a :: l) = l.
Proof.
  unfold py_slice, slice_bound. change (1 <? 0)%Z with false. cbn iota.
  cbn [length].
  replace (Nat.min (Z.to_nat 1) (S (length l))) with 1 by lia.
  cbn [skipn]. replace (S (length l) - 1) with (length l) by lia.
  apply firstn_all.
Qed.

Lemma slice_init {A : Type} (l : list A) (a : A) :
  py_slice None (Some (-1)%Z) (l ++ [a]) = l.
Proof.
  unfold py_slice, slice_bound. change (-1 <? 0)%Z with true. cbn iota.
  rewrite length_app. cbn [length skipn].
  replace (Z.to_nat (Z.max 0 (-1 + Z.of_nat (length l + 1))) - 0)
    with (length l) by lia.
  rewrite firstn_app, Nat.sub_diag, firstn_all. cbn [firstn].
  apply app_nil_r.
Qed.

Lemma fdiv_1_r (a : flt) : fdiv a fone = a.
Proof.
  destruct a as [q | s | ]; unfold fdiv, fone; [| reflexivity | reflexivity].
  destruct (Qc_eq_dec 1%Qc 0%Qc) as [H | _]; [discriminate H |].
  f_equal. unfold Qcdiv. change (/ 1)%Qc with 1%Qc. apply Qcmult_1_r.
Qed.

Lemma mapM_length {A B : Type} (f : A -> exc B) (xs : list A) (ys : list B) :
  mapM f xs = Ok ys -> length ys = length xs.
Proof.
  revert ys. induction xs as [| x xs IH]; intros ys H; cbn [mapM] in H.
  - injection H as <-. reflexivity.
  - bind_inv H y Hy. bind_inv H ys' Hys. injection H as <-.
    cbn [length]. f_equal. now apply IH.
Qed.

Lemma length_zip3 {A B C : Type} (xs : list A) (ys : list B) (zs : list C) :
  length (zip3 xs ys zs)
  = Nat.min (length xs) (Nat.min (length ys) (length zs)).
Proof.
  revert ys zs. induction xs as [| x xs IH]; intros [| y ys] [| z zs];
    cbn [zip3 length]; try reflexivity.
  rewrite IH. reflexivity.
Qed.

Lemma length_zip4 {A B C D : Type}
  (ws : list A) (xs : list B) (ys : list C) (zs : list D) :
  length (zip4 ws xs ys zs)
  = Nat.min (length ws)
      (Nat.min (length xs) (Nat.min (length ys) (length zs))).
Proof.
  revert xs ys zs.
  induction ws as [| w ws IH]; intros [| x xs] [| y ys] [| z zs];
    cbn [zip4 length]; try reflexivity.
  rewrite IH. reflexivity.
Qed.



Lemma forward_coeffs_last_one memory solve mats c :
  forward_coeffs memory solve mats = Ok c ->
  exists c_free, c = c_free ++ [fone].
Proof.
  unfold forward_coeffs. intros H.
  bind_inv H mems Hm. bind_inv H gen Hg. bind_inv H b Hb. bind_inv H x Hx.
  injection H as <-. eauto.
Qed.

(** X10.  [forecast_solve] divides by the last coefficient, and
    [forward_coeffs] always ends with [1.0]: whenever the coefficients
    are obtained, and each trajectory has as many basis columns as
    [coeffs[:-1]] has entries and one number of frames, the result is
    exactly the guess at every frame outside of the domain, whatever the
    values of the coefficients, and [guess + basis[frame] . coeffs[:-1]]
    at every frame of the domain. *)
Theorem forecast_solve_exact_guess memory solve
  (mats basis : list array2) (in_domain : list (list bool))
  (guess : list vec) (c : vec) :
  forward_coeffs memory solve mats = Ok c ->
  Forall (fun ydg : array2 * list bool * vec =>
            let '(y, d, g) := ydg in
            ncols y = length c - 1 /\ nrows y = length d /\
            length g = length d)
         (zip3 basis in_domain guess) ->
  exists res,
    forecast_solve memory solve mats basis in_domain guess = Ok res /\
    Forall2 (fun (ydg : array2 * list bool * vec) (r : vec) =>
               let '(y, d, g) := ydg in
               length r = length g /\
               forall k gk, nth_error g k = Some gk ->
                 (nth_error d k = Some false -> nth_error r k = Some gk) /\
                 (forall row, nth_error d k = Some true ->
                    nth_error (rows y) k = Some row ->
                    nth_error r k
                    = Some (fadd gk
                              (dot row (py_slice None (Some (-1)%Z) c)))))
            (zip3 basis in_domain guess) res.
Proof.
  intros Hc Hall. unfold forecast_solve. rewrite Hc. cbn [bind].
  destruct (forward_coeffs_last_one memory solve mats c Hc) as (cf & ->).
  unfold forecast_transform. apply mapM_Forall2.
  eapply Forall_impl; [| exact Hall].
  intros [[y d] g] (Hy & Hd & Hg). unfold forecast_frames.
  rewrite slice_init. rewrite length_app in Hy. cbn [length] in Hy.
  rewrite matvec_ok by lia. cbn [bind]. unfold np_where0.
  rewrite bcast2_same_length by (rewrite length_map; symmetry; exact Hd).
  cbn [bind]. rewrite py_index_last. cbn [bind].
  rewrite bcast2_same_length
    by (rewrite length_map, length_zip_with, length_map;
        unfold nrows in Hd; lia).
  eexists. split; [reflexivity |]. split.
  - rewrite length_zip_with, length_map, length_zip_with, length_map.
    unfold nrows in Hd. lia.
  - intros k gk Hgk.
    assert (Hlt : k < length g) by (apply nth_error_Some; congruence).
    destruct (nth_error_in_range (rows y) k
                ltac:(unfold nrows in Hd; lia)) as (rk & Hrk).
    split.
    + intros Hk.
      erewrite nth_error_zip_with; [| exact Hgk |].
      2:{ rewrite nth_error_map.
          erewrite nth_error_zip_with; [reflexivity | exact Hk |].
          rewrite nth_error_map, Hrk. reflexivity. }
      cbn iota. now rewrite fdiv_1_r, fadd_0_r.
    + intros row Hk Hrow.
      assert (rk = row) by congruence. subst rk.
      erewrite nth_error_zip_with; [| exact Hgk |].
      2:{ rewrite nth_error_map.
          erewrite nth_error_zip_with; [reflexivity | exact Hk |].
          rewrite nth_error_map, Hrk. reflexivity. }
      cbn iota. now rewrite fdiv_1_r.
Qed.

Lemma forecast_solve_exact_guess_witness :
  exists res,
    forecast_solve no_memory cramer [ex_c0; ex_c1]
      [Array2 1 [[of_int 5]; [of_int 7]]] [[true; false]]
      [[of_int 3; of_int 4]] = Ok res /\
    exists r, res = [r] /\ nth_error r 1 = Some (of_int 4).
Proof.
  destruct (forward_coeffs no_memory cramer [ex_c0; ex_c1]) as [e | c] eqn:E;
    [vm_compute in E; discriminate |].
  assert (Hlen : length c = 2).
  { vm_compute in E. injection E as <-. reflexivity. }
  destruct (forecast_solve_exact_guess no_memory cramer [ex_c0; ex_c1]
              [Array2 1 [[of_int 5]; [of_int 7]]] [[true; false]]
              [[of_int 3; of_int 4]] c E) as (res & Hrun & HF).
  - constructor; [| constructor]. rewrite Hlen. repeat split.
  - exists res. split; [exact Hrun |].
    cbn [zip3] in HF.
    inversion HF as [| ? r ? rest Hhead Hrest]; subst.
    inversion Hrest; subst. destruct Hhead as (_ & Hr).
    exists r. split; [reflexivity |].
    apply (proj1 (Hr 1 (of_int 4) eq_refl)). reflexivity.
Defined.

(** X11.  The transforms pair the per-trajectory arguments with [zip]:
    lists of different lengths are not an error, and a call that returns
    has one result per trajectory of the shortest list. *)
Theorem transforms_truncate_like_zip (coeffs : vec)
  (w_basis basis : list array2) (weights : list vec)
  (in_domain : list (list bool)) (guess : list vec) :
  (forall res, reweight_transform coeffs basis weights = Ok res ->
     length res = Nat.min (length basis) (length weights)) /\
  (forall res, forecast_transform coeffs basis in_domain guess = Ok res ->
     length res
     = Nat.min (length basis)
         (Nat.min (length in_domain) (length guess))) /\
  (forall res,
     aftcast_transform coeffs w_basis basis in_domain guess = Ok res ->
     length res
     = Nat.min (length w_basis)
         (Nat.min (length basis)
            (Nat.min (length in_domain) (length guess)))).
Proof.
  split; [| split]; intros res H.
  - apply mapM_length in H. now rewrite length_combine in H.
  - apply mapM_length in H. now rewrite length_zip3 in H.
  - apply mapM_length in H. now rewrite length_zip4 in H.
Qed.

Lemma transforms_truncate_like_zip_witness :
  exists res,
    forecast_transform [of_int 2; fone]
      [Array2 1 [[of_int 5]]; Array2 1 [[of_int 7]]; Array2 3 []]
      [[true]; [false]] [[of_int 3]; [of_int 4]; []; []] = Ok res /\
    length res = 2.
Proof.
  destruct (forecast_transform [of_int 2; fone]
              [Array2 1 [[of_int 5]]; Array2 1 [[of_int 7]]; Array2 3 []]
              [[true]; [false]] [[of_int 3]; [of_int 4]; []; []])
    as [e | res] eqn:E; [vm_compute in E; discriminate |].
  exists res. split; [reflexivity |].
  apply (proj1 (proj2 (transforms_truncate_like_zip [of_int 2; fone] [] 
           [Array2 1 [[of_int 5]]; Array2 1 [[of_int 7]]; Array2 3 []] []
           [[true]; [false]] [[of_int 3]; [of_int 4]; []; []])) res E).
Defined.

(** X12.  With an empty coefficient vector no transform returns for a
    trajectory: [reweight_transform] and [aftcast_transform] fail at
    [coeffs[0]] with [IndexError], and [forecast_transform] with
    [ValueError] (the product with [coeffs[:-1]]) or with [IndexError]
    (at [coeffs[-1]]).  With no trajectory every transform returns the
    empty list, whatever the coefficients. *)
Theorem transforms_without_coefficients
  (x_w x : array2) (w g : vec) (d : list bool)
  (w_basis basis : list array2) (weights guess : list vec)
  (in_domain : list (list bool)) :
  reweight_transform [] (x :: basis) (w :: weights) = Raise IndexError /\
  aftcast_transform [] (x_w :: w_basis) (x :: basis) (d :: in_domain)
    (g :: guess) = Raise IndexError /\
  (forecast_transform [] (x :: basis) (d :: in_domain) (g :: guess)
   = Raise ValueError \/
   forecast_transform [] (x :: basis) (d :: in_domain) (g :: guess)
   = Raise IndexError) /\
  (forall coeffs,
     reweight_transform coeffs [] weights = Ok [] /\
     forecast_transform coeffs [] in_domain guess = Ok [] /\
     aftcast_transform coeffs [] basis in_domain guess = Ok []).
Proof.
  split; [reflexivity |]. split; [reflexivity |]. split.
  - unfold forecast_transform. cbn [zip3 mapM]. unfold forecast_frames.
    change (py_slice None (Some (-1)%Z) (@nil flt)) with (@nil flt).
    destruct (matvec x []) as [e | p] eqn:Ep.
    + left. unfold matvec in Ep.
      destruct (ncols x =? length (@nil flt)); [discriminate |].
      injection Ep as <-. reflexivity.
    + cbn [bind]. destruct (np_where0 d p) as [e | num] eqn:En.
      * left. unfold np_where0, bcast2 in En.
        destruct (length d =? length p); [discriminate |].
        destruct d as [| d0 [| d1 d']]; destruct p as [| p0 [| p1 p']];
          try discriminate; injection En as <-; reflexivity.
      * right. reflexivity.
  - intros coeffs. repeat split.
Qed.

(** *** The coefficient solvers *)

(** X13.  The coefficient solvers read [mats[0]] and [mats[1]] after
    the memory terms: when [_memory.memory] returns for fewer than two
    matrices, [forward_coeffs] and [backward_coeffs] raise [IndexError],
    and so do [forecast_solve], [reweight_solve] and [aftcast_solve],
    which call them first. *)
Theorem coefficients_need_two_matrices memory solve solve2
  (mats mems : list array2) :
  length mats < 2 -> memory mats = Ok mems ->
  forward_coeffs memory solve mats = Raise IndexError /\
  backward_coeffs memory solve solve2 mats = Raise IndexError /\
  forall w_basis basis weights in_domain guess,
    forecast_solve memory solve mats basis in_domain guess
    = Raise IndexError /\
    reweight_solve memory solve solve2 mats basis weights
    = Raise IndexError /\
    aftcast_solve memory solve solve2 mats w_basis basis in_domain guess
    = Raise IndexError.
Proof.
  intros Hlen Hm.
  assert (Hf : forward_coeffs memory solve mats = Raise IndexError).
  { unfold forward_coeffs. rewrite Hm. cbn [bind].
    destruct mats as [| m0 [| m1 rest]]; [reflexivity | reflexivity |].
    cbn [length] in Hlen. lia. }
  assert (Hb : backward_coeffs memory solve solve2 mats = Raise IndexError).
  { unfold backward_coeffs. rewrite Hm. cbn [bind].
    destruct mats as [| m0 [| m1 rest]]; [reflexivity | reflexivity |].
    cbn [length] in Hlen. lia. }
  split; [exact Hf |]. split; [exact Hb |]. intros.
  unfold forecast_solve, reweight_solve, aftcast_solve.
  rewrite Hf, Hb. repeat split.
Qed.

Lemma coefficients_need_two_matrices_witness :
  forward_coeffs no_memory cramer [ex_c0] = Raise IndexError /\
  backward_coeffs no_memory cramer cramer2 [ex_c0] = Raise IndexError.
Proof.
  destruct (coefficients_need_two_matrices no_memory cramer cramer2
              [ex_c0] []) as (Hf & Hb & _).
  - cbn [length]. lia.
  - reflexivity.
  - split; [exact Hf | exact Hb].
Defined.

Lemma ew2_ncols f (A B C : array2) : ew2 f A B = Ok C -> ncols C = ncols A.
Proof.
  unfold ew2. destruct (same_shape A B); [| discriminate].
  intros H. injection H as <-. reflexivity.
Qed.

Lemma add_sum_ncols (A C : array2) (s : option array2) :
  add_sum A s = Ok C -> ncols C = ncols A.
Proof.
  destruct s as [B |]; cbn [add_sum].
  - apply ew2_ncols.
  - intros H. injection H as <-. reflexivity.
Qed.

Lemma generator_ncols (mats mems : list array2) (gen : array2) :
  generator mats mems = Ok gen ->
  exists m1, py_index mats 1 = Ok m1 /\ ncols gen = ncols m1.
Proof.
  unfold generator. intros H.
  bind_inv H m1 H1. bind_inv H m0 H0. bind_inv H d Hd. bind_inv H s Hs.
  exists m1. split; [exact H1 |].
  apply add_sum_ncols in H. apply ew2_ncols in Hd. congruence.
Qed.

Lemma slice_col_at_some (a b : option Z) (k : Z) (A : array2) (v : vec) :
  slice_col_at a b k A = Ok v -> 1 <= ncols A.
Proof.
  unfold slice_col_at. intros H. bind_inv H j Hj.
  destruct (ncols A) as [| n]; [| lia].
  exfalso. unfold py_index in Hj. cbn [seq length Z.of_nat] in Hj.
  cbv zeta in Hj. rewrite Z.add_0_r in Hj.
  assert (Eif : (if (k <? 0)%Z then k else k) = k)
    by (destruct (k <? 0)%Z; reflexivity).
  rewrite Eif in Hj.
  destruct (Z.ltb_spec k 0) as [Hk | Hk]; [discriminate Hj |].
  destruct (Z.leb_spec 0 k) as [_ | Hk']; [discriminate Hj | lia].
Qed.



Lemma fdiv_by_zero (s : flt) : ~ finite (fdiv s (of_int 0)).
Proof.
  assert (E : Q2Qc (inject_Z 0) = 0%Qc) by (apply Qc_is_canon; reflexivity).
  unfold of_int. rewrite E.
  destruct s as [q | n | ]; unfold fdiv.
  - destruct (Qc_eq_dec 0%Qc 0%Qc) as [_ | H]; [| exfalso; now apply H].
    destruct (q ?= 0)%Qc; exact (fun H => H).
  - change (0 ?= 0)%Qc with Eq. exact (fun H => H).
  - exact (fun H => H).
Qed.

(** X15.  [integral_solve] divides by [dlag = lag // (mem+1)], which is
    [0] for [lag = 0]: the two assertions pass, and a call that returns
    gives an infinity or NaN, never a real number. *)
Theorem integral_solve_zero_lag memory solve solve2
  (mats : list array2) (mem : Z) (v : flt) :
  integral_solve memory solve solve2 mats 0 mem = Ok v -> ~ finite v.
Proof.
  unfold integral_solve. intros H.
  bind_inv H u Hu. bind_inv H r Hr. bind_inv H u' Hu'.
  bind_inv H dlag Hd. bind_inv H mems Hm. bind_inv H m0 H0.
  bind_inv H rhs Hrhs. bind_inv H gen Hg. bind_inv H b Hb.
  bind_inv H cf Hcf. bind_inv H b' Hb'. bind_inv H cb Hcb.
  bind_inv H t Ht. bind_inv H s Hs.
  injection H as <-.
  unfold py_floordiv in Hd.
  destruct (mem + 1 =? 0)%Z; [discriminate |].
  injection Hd as <-. rewrite Zdiv_0_l. apply fdiv_by_zero.
Qed.

Lemma integral_solve_zero_lag_witness :
  exists v,
    integral_solve no_memory cramer cramer2 [ex_c0; ex_c1] 0 0 = Ok v /\
    ~ finite v.
Proof.
  destruct (integral_solve no_memory cramer cramer2 [ex_c0; ex_c1] 0 0)
    as [e | v] eqn:E; [vm_compute in E; discriminate |].
  exists v. split; [reflexivity |].
  exact (integral_solve_zero_lag no_memory cramer cramer2
           [ex_c0; ex_c1] 0 v E).
Defined.

End MemoryExtras.
